(** * go-evmap: a left-right (double-buffered) eventually consistent map

    Shallow embedding of the Go packages [oplog] (pkg/oplog) and [eventual]
    (the map engine and its reader handles), with the properties of the
    specification stated and proved over it.

    The repository holds two evolutions of the engine, both in package
    [eventual]:
    - the registry engine (Map with [readers], reader.go's [Reader]):
      module [Registry];
    - the automatic-refresh engine (map.go: [replicationWriteLag],
      [maxReplicationWriteLag], [Map.Get]/[Map.Has]): module [AutoRefresh].

    Locks are not modelled: every method below is one critical section, and
    the calls of a trace are the serialisation the writer lock imposes. *)

From stdpp Require Import gmap list strings.
From Stdlib Require Import ZArith.

(** ** Go values shared by the packages *)

(** A panic or a normal return. *)
Inductive result (A : Type) : Type :=
| Ok (a : A)
| Panic (msg : string).
Arguments Ok {A} a.
Arguments Panic {A} msg.

(** [NewMap] allocates exactly two map variables, [r] and [w]; every
    [*map[K]*V] of an engine is the address of one of them. *)
Inductive mapref : Type := addr_r | addr_w.

#[global] Instance mapref_eq_dec : EqDecision mapref.
Proof. solve_decision. Defined.

(** Go's [int] on a 64-bit platform: two's complement wrap-around. *)
Definition wrap_int (z : Z) : Z := ((z + 2 ^ 63) mod 2 ^ 64 - 2 ^ 63)%Z.
Definition max_int : Z := (2 ^ 63 - 1)%Z.

Section GoMap.
Context {K : Type} `{Countable K} {V : Type}.

(** A [map[K]*V] is a [gmap K (option V)]: the stored [*V] is [None] for
    the nil pointer.

    [v, ok := m[key]]: the zero value (nil) and [false] for a missing key. *)
Definition golookup (m : gmap K (option V)) (key : K) : option V * bool :=
  match m !! key with
  | Some value => (value, true)
  | None => (None, false)
  end.

(** [delete(m, key)] for each key of the list, in order. *)
Definition delete_each (keys : list K) (m : gmap K (option V)) : gmap K (option V) :=
  foldl (fun acc key => delete key acc) m keys.

(** The loop [for k := range m { delete(m, k) }] of [applyEntry], on the
    map the pointer leads to: it visits every key that is in the map when
    it starts (a key is only ever removed by its own iteration), in an
    order the language leaves open. *)
Definition range_delete (m : gmap K (option V)) : gmap K (option V) :=
  delete_each (map_to_list m).*1 m.

(** The heap cells behind the two addresses. *)
Record store : Type := Store { at_r : gmap K (option V); at_w : gmap K (option V) }.

Definition load (p : mapref) (s : store) : gmap K (option V) :=
  match p with addr_r => at_r s | addr_w => at_w s end.

Definition store_at (p : mapref) (m : gmap K (option V)) (s : store) : store :=
  match p with
  | addr_r => {| at_r := m; at_w := at_w s |}
  | addr_w => {| at_r := at_r s; at_w := m |}
  end.

End GoMap.
Arguments store K {_ _} V.

(** [atomic.SwapPointer(addr, new)]: stores [new] in the variable and
    returns what it held; the pair is (returned value, variable after). *)
Definition SwapPointer (held new : mapref) : mapref * mapref := (held, new).

(** ** Package oplog (pkg/oplog/log.go and its entry file) *)
Module oplog.

Inductive entryType : Type := entryTypeInsert | entryTypeDelete | entryTypeClear.

Section Log.
Context {K : Type} `{Countable K} `{Inhabited K} {V : Type}.

Record entry : Type := Entry { t : entryType; k : K; v : option V }.

Definition newEntry (ty : entryType) (key : K) (value : option V) : entry :=
  {| t := ty; k := key; v := value |}.

Definition Insert (key : K) (value : option V) : entry :=
  newEntry entryTypeInsert key value.

Definition Delete (key : K) : entry := newEntry entryTypeDelete key None.

(** [&entry{t: entryTypeClear}]: key and value keep their zero values. *)
Definition Clear : entry := {| t := entryTypeClear; k := inhabitant; v := None |}.

Record Log : Type := MkLog { entries : list entry; latest : option entry }.

Definition applyEntry (e : entry) (m : gmap K (option V)) : gmap K (option V) :=
  match t e with
  | entryTypeInsert => <[k e := v e]> m
  | entryTypeDelete => delete (k e) m
  | entryTypeClear => range_delete m
  end.

Definition Log_Push (l : Log) (e : entry) : Log :=
  {| entries := entries l ++ [e]; latest := Some e |}.

Definition Log_PushAndApply (l : Log) (e : entry) (m : gmap K (option V))
  : Log * gmap K (option V) :=
  ({| entries := entries l ++ [e]; latest := Some e |}, applyEntry e m).

Definition Log_Apply (l : Log) (m : gmap K (option V)) : gmap K (option V) :=
  foldl (fun acc e => applyEntry e acc) m (entries l).

Definition Log_Clear (l : Log) : Log := {| entries := []; latest := latest l |}.

Definition Log_Len (l : Log) : Z := Z.of_nat (length (entries l)).

Definition NewLog : Log := {| entries := []; latest := None |}.

(** The specification's wording of one replay step: Insert sets or
    overwrites, Delete removes the key if present and does nothing
    otherwise, Clear leaves no key at all. *)
Definition spec_step (e : entry) (m : gmap K (option V)) : gmap K (option V) :=
  match t e with
  | entryTypeInsert => <[k e := v e]> m
  | entryTypeDelete => if decide (is_Some (m !! k e)) then delete (k e) m else m
  | entryTypeClear => ∅
  end.

(** The specification's wording of [apply]: first entry first. *)
Fixpoint spec_replay (es : list entry) (m : gmap K (option V)) : gmap K (option V) :=
  match es with
  | [] => m
  | e :: es' => spec_replay es' (spec_step e m)
  end.

End Log.
Arguments entry K V : clear implicits.
Arguments Log K V : clear implicits.

End oplog.

(** ** Package eventual, registry engine (Map with [readers]; reader.go) *)
Module Registry.

Section Engine.
Context {K : Type} `{Countable K} `{Inhabited K} {V : Type}.

(** reader.go's [Reader]. The lock and the back-pointer [m] (there is one
    engine) are left out; [readable] is the handle's own pointer. *)
Record Reader : Type := MkReader { closed : bool; r_readable : mapref }.

(** The Map struct. [readers] holds the addresses of the handles: a handle's
    address is its index in the heap of handles. *)
Record Map : Type := MkMap {
  readable : mapref;
  writable : mapref;
  readers : list nat;
  oplog : oplog.Log K V
}.

(** The heap an engine lives in: the two map variables, every [Reader]
    allocated so far, and the Map struct itself. *)
Record world : Type := World {
  maps : store K V;
  handles : list Reader;
  engine : Map
}.

Definition NewMap : world :=
  {| maps := {| at_r := ∅; at_w := ∅ |};
     handles := [];
     engine := {| readable := addr_r; writable := addr_w; readers := [];
                  oplog := oplog.NewLog |} |}.

Definition Map_swapLocked (m : Map) : Map :=
  let readable0 := readable m in
  let writable0 := writable m in
  let '(ret1, writable1) := SwapPointer writable0 readable0 in
  let m1 := {| readable := ret1; writable := writable m;
               readers := readers m; oplog := oplog m |} in
  let '(ret2, _) := SwapPointer readable0 writable1 in
  {| readable := readable m1; writable := ret2;
     readers := readers m1; oplog := oplog m1 |}.

(** [m.oplog.Apply(m.writable)], then the deferred [m.oplog.Clear()]. *)
Definition Map_syncLocked (m : Map) (s : store K V) : Map * store K V :=
  let s' := store_at (writable m) (oplog.Log_Apply (oplog m) (load (writable m) s)) s in
  ({| readable := readable m; writable := writable m; readers := readers m;
      oplog := oplog.Log_Clear (oplog m) |}, s').

(** [r.swapReadable(p)] on the handle at address [r]. *)
Definition Reader_swapReadable (r : nat) (p : mapref) (hs : list Reader) : list Reader :=
  alter (fun h => {| closed := closed h; r_readable := p |}) r hs.

Definition Map_Refresh (w : world) : world :=
  let m1 := Map_swapLocked (engine w) in
  let hs := foldl (fun hs r => Reader_swapReadable r (readable m1) hs)
                  (handles w) (readers m1) in
  let '(m2, s) := Map_syncLocked m1 (maps w) in
  {| maps := s; handles := hs; engine := m2 |}.

Definition NewReader (m : Map) : Reader :=
  {| closed := false; r_readable := readable m |}.

(** [m.Reader()]: the new handle's address and the heap after. *)
Definition Map_Reader (w : world) : nat * world :=
  let r := length (handles w) in
  (r, {| maps := maps w;
         handles := handles w ++ [NewReader (engine w)];
         engine := {| readable := readable (engine w);
                      writable := writable (engine w);
                      readers := readers (engine w) ++ [r];
                      oplog := oplog (engine w) |} |}).

(** One mutation: the entry is pushed and applied to the map [m.writable]
    points to. *)
Definition pushAndApply (e : oplog.entry K V) (w : world) : world :=
  let '(l, c) := oplog.Log_PushAndApply (oplog (engine w)) e
                   (load (writable (engine w)) (maps w)) in
  {| maps := store_at (writable (engine w)) c (maps w);
     handles := handles w;
     engine := {| readable := readable (engine w);
                  writable := writable (engine w);
                  readers := readers (engine w);
                  oplog := l |} |}.

Definition Map_Insert (key : K) (value : option V) (w : world) : world :=
  pushAndApply (oplog.Insert key value) w.

Definition Map_Delete (key : K) (w : world) : bool * world :=
  let ok := snd (golookup (load (writable (engine w)) (maps w)) key) in
  (ok, pushAndApply (oplog.Delete key) w).

Definition Map_Clear (w : world) : world := pushAndApply oplog.Clear w.

(** [remove(s, i)]: [s[i] = s[len(s)-1]] writes into the array [s] shares
    with its caller, then [s[:len(s)-1]] is returned. The result is
    (the caller's slice [s] after the write, the returned slice); [None]
    is the index-out-of-range panic. *)
Definition remove {A : Type} (s : list A) (i : nat) : option (list A * list A) :=
  match s !! (length s - 1) with
  | Some x =>
      if decide (i < length s)
      then let s' := <[i := x]> s in Some (s', take (length s - 1) s')
      else None
  | None => None
  end.

(** The loop of [Close] from position [idx] on, over the remaining
    elements [rest] of [s]: at the first element equal to [r] it calls
    [remove], drops what [remove] returns, and breaks. *)
Fixpoint Close_loop (r : nat) (s : list nat) (idx : nat) (rest : list nat) : list nat :=
  match rest with
  | [] => s
  | reader :: rest' =>
      if decide (reader = r)
      then match remove s idx with
           | Some (s', _) => s'
           | None => s
           end
      else Close_loop r s (S idx) rest'
  end.

(** [r.Close()]. No field of the handle is written. *)
Definition Reader_Close (r : nat) (w : world) : world :=
  {| maps := maps w;
     handles := handles w;
     engine := {| readable := readable (engine w);
                  writable := writable (engine w);
                  readers := Close_loop r (readers (engine w)) 0 (readers (engine w));
                  oplog := oplog (engine w) |} |}.

Definition Reader_Get (r : nat) (key : K) (w : world) : result (option V * bool) :=
  match handles w !! r with
  | Some h =>
      if closed h then Panic "reader closed"
      else Ok (golookup (load (r_readable h) (maps w)) key)
  | None => Panic "nil pointer dereference"
  end.

Definition Reader_Has (r : nat) (key : K) (w : world) : result bool :=
  match handles w !! r with
  | Some h =>
      if closed h then Panic "reader closed"
      else Ok (snd (golookup (load (r_readable h) (maps w)) key))
  | None => Panic "nil pointer dereference"
  end.

(** The calls a client can make that change the heap. *)
Inductive call : Type :=
| CallInsert (key : K) (value : option V)
| CallDelete (key : K)
| CallClear
| CallRefresh
| CallReader
| CallClose (r : nat).

Definition exec (w : world) (c : call) : world :=
  match c with
  | CallInsert key value => Map_Insert key value w
  | CallDelete key => snd (Map_Delete key w)
  | CallClear => Map_Clear w
  | CallRefresh => Map_Refresh w
  | CallReader => snd (Map_Reader w)
  | CallClose r => Reader_Close r w
  end.

(** The heap after a sequence of calls on a new engine. *)
Definition run (cs : list call) : world := foldl exec NewMap cs.

(** A call that only mutates: insert, delete or clear. *)
Definition is_mutation (c : call) : bool :=
  match c with
  | CallInsert _ _ | CallDelete _ | CallClear => true
  | _ => false
  end.

(** The contents of the two copies, by role. *)
Definition readable_contents (w : world) : gmap K (option V) :=
  load (readable (engine w)) (maps w).
Definition writable_contents (w : world) : gmap K (option V) :=
  load (writable (engine w)) (maps w).

(** A handle is registered when the engine's [readers] holds its address. *)
Definition registered (r : nat) (w : world) : Prop := r ∈ readers (engine w).

(** What every reachable heap satisfies. *)
Record inv (w : world) : Prop := Inv {
  inv_distinct : readable (engine w) ≠ writable (engine w);
  inv_replay : oplog.Log_Apply (oplog (engine w)) (readable_contents w) = writable_contents w;
  inv_alloc : ∀ r, r ∈ readers (engine w) → r < length (handles w);
  inv_ptr : ∀ r h, r ∈ readers (engine w) → handles w !! r = Some h →
            r_readable h = readable (engine w);
  inv_open : ∀ r h, handles w !! r = Some h → closed h = false
}.

End Engine.
Arguments Reader : clear implicits.
Arguments Map K V : clear implicits.
Arguments world K {_ _} V.
Arguments call K V : clear implicits.

End Registry.

(** ** Package eventual, automatic-refresh engine (map.go and its options) *)
Module AutoRefresh.

Record Options : Type := MkOptions { MaxReplicationWriteLag : Z }.

Definition OptionFunc : Type := Options → Options.

Definition WithMaxReplicationWriteLag (writes : Z) : OptionFunc :=
  fun _ => {| MaxReplicationWriteLag := writes |}.

Section Engine.
Context {K : Type} `{Countable K} `{Inhabited K} {V : Type}.

(** The Map struct of map.go, without [writeLock] and [initOnce]. *)
Record Map : Type := MkMap {
  readable : mapref;
  writable : mapref;
  replicationWriteLag : Z;
  maxReplicationWriteLag : Z;
  oplog : oplog.Log K V
}.

Record world : Type := World { maps : store K V; engine : Map }.

(** [NewMap(options...)]: [init] allocates the two maps and the log, the
    option functions run in order over the zero [Options]. *)
Definition NewMap (options : list OptionFunc) : world :=
  let opts := foldl (fun o fn => fn o) {| MaxReplicationWriteLag := 0 |} options in
  {| maps := {| at_r := ∅; at_w := ∅ |};
     engine := {| readable := addr_r; writable := addr_w;
                  replicationWriteLag := 0;
                  maxReplicationWriteLag := MaxReplicationWriteLag opts;
                  oplog := oplog.NewLog |} |}.

Definition Map_swap (m : Map) : Map :=
  let readable0 := readable m in
  let writable0 := writable m in
  let '(ret1, writable1) := SwapPointer writable0 readable0 in
  let m1 := {| readable := ret1; writable := writable m;
               replicationWriteLag := replicationWriteLag m;
               maxReplicationWriteLag := maxReplicationWriteLag m;
               oplog := oplog m |} in
  let '(ret2, _) := SwapPointer readable0 writable1 in
  {| readable := readable m1; writable := ret2;
     replicationWriteLag := replicationWriteLag m1;
     maxReplicationWriteLag := maxReplicationWriteLag m1;
     oplog := oplog m1 |}.

(** [m.oplog.Apply(m.writable)], then the deferred [m.oplog.Clear()]. *)
Definition Map_sync (w : world) : world :=
  let m := engine w in
  {| maps := store_at (writable m) (oplog.Log_Apply (oplog m) (load (writable m) (maps w)))
                      (maps w);
     engine := {| readable := readable m; writable := writable m;
                  replicationWriteLag := replicationWriteLag m;
                  maxReplicationWriteLag := maxReplicationWriteLag m;
                  oplog := oplog.Log_Clear (oplog m) |} |}.

Definition Map_Refresh (w : world) : world :=
  let w1 := {| maps := maps w; engine := Map_swap (engine w) |} in
  let w2 := Map_sync w1 in
  {| maps := maps w2;
     engine := {| readable := readable (engine w2); writable := writable (engine w2);
                  replicationWriteLag := 0;
                  maxReplicationWriteLag := maxReplicationWriteLag (engine w2);
                  oplog := oplog (engine w2) |} |}.

Definition Map_observeWrite (w : world) : world :=
  let m := engine w in
  let lag := wrap_int (replicationWriteLag m + 1) in
  let w1 := {| maps := maps w;
               engine := {| readable := readable m; writable := writable m;
                            replicationWriteLag := lag;
                            maxReplicationWriteLag := maxReplicationWriteLag m;
                            oplog := oplog m |} |} in
  if (0 <? maxReplicationWriteLag m)%Z && (maxReplicationWriteLag m <? lag)%Z
  then Map_Refresh w1
  else w1.

(** The body of a mutation: push the entry and apply it to the map
    [m.writable] points to. *)
Definition pushAndApply (e : oplog.entry K V) (w : world) : world :=
  let m := engine w in
  let '(l, c) := oplog.Log_PushAndApply (oplog m) e (load (writable m) (maps w)) in
  {| maps := store_at (writable m) c (maps w);
     engine := {| readable := readable m; writable := writable m;
                  replicationWriteLag := replicationWriteLag m;
                  maxReplicationWriteLag := maxReplicationWriteLag m;
                  oplog := l |} |}.

(** The deferred [observeWrite] runs last, after the body. *)
Definition Map_Insert (key : K) (value : option V) (w : world) : world :=
  Map_observeWrite (pushAndApply (oplog.Insert key value) w).

Definition Map_Delete (key : K) (w : world) : bool * world :=
  let ok := snd (golookup (load (writable (engine w)) (maps w)) key) in
  (ok, Map_observeWrite (pushAndApply (oplog.Delete key) w)).

Definition Map_Clear (w : world) : world :=
  Map_observeWrite (pushAndApply oplog.Clear w).

Definition Map_Has (key : K) (w : world) : bool :=
  snd (golookup (load (readable (engine w)) (maps w)) key).

Definition Map_Get (key : K) (w : world) : option V * bool :=
  golookup (load (readable (engine w)) (maps w)) key.

Inductive call : Type :=
| CallInsert (key : K) (value : option V)
| CallDelete (key : K)
| CallClear
| CallRefresh.

Definition exec (w : world) (c : call) : world :=
  match c with
  | CallInsert key value => Map_Insert key value w
  | CallDelete key => snd (Map_Delete key w)
  | CallClear => Map_Clear w
  | CallRefresh => Map_Refresh w
  end.

(** The heap after a sequence of calls on an engine made with [options]. *)
Definition run (options : list OptionFunc) (cs : list call) : world :=
  foldl exec (NewMap options) cs.

Definition readable_contents (w : world) : gmap K (option V) :=
  load (readable (engine w)) (maps w).
Definition writable_contents (w : world) : gmap K (option V) :=
  load (writable (engine w)) (maps w).

(** The heap [observeWrite] works on once the counter is incremented. *)
Definition counted (w : world) : world :=
  {| maps := maps w;
     engine := {| readable := readable (engine w); writable := writable (engine w);
                  replicationWriteLag := wrap_int (replicationWriteLag (engine w) + 1);
                  maxReplicationWriteLag := maxReplicationWriteLag (engine w);
                  oplog := oplog (engine w) |} |}.

(** The write that makes the counter exceed a configured threshold. *)
Definition crosses (w : world) : bool :=
  (0 <? maxReplicationWriteLag (engine w))%Z &&
  (maxReplicationWriteLag (engine w) <? wrap_int (replicationWriteLag (engine w) + 1))%Z.

(** What every reachable heap satisfies. *)
Record inv (w : world) : Prop := Inv {
  inv_distinct : readable (engine w) ≠ writable (engine w);
  inv_replay : oplog.Log_Apply (oplog (engine w)) (readable_contents w) = writable_contents w
}.

End Engine.
Arguments Map K V : clear implicits.
Arguments world K {_ _} V.
Arguments call K V : clear implicits.

End AutoRefresh.

(** * Properties *)

(** ** The operation log *)
Section OplogFacts.
Context {K : Type} `{Countable K} `{Inhabited K} {V : Type}.
Implicit Types (m : gmap K (option V)) (e : oplog.entry K V) (l : oplog.Log K V).

Lemma delete_each_lookup (keys : list K) m (key : K) :
  delete_each keys m !! key = if decide (key ∈ keys) then None else m !! key.
Proof.
  revert m. induction keys as [|k0 keys IH]; intros m.
  - rewrite decide_False; [done|]. apply not_elem_of_nil.
  - change (delete_each keys (delete k0 m) !! key = if decide (key ∈ k0 :: keys) then None else m !! key).
    rewrite IH. destruct (decide (key = k0)) as [->|Hne].
    + rewrite lookup_delete_eq.
      rewrite (decide_True (P := k0 ∈ k0 :: keys)) by (apply elem_of_cons; by left).
      by case_decide.
    + rewrite lookup_delete_ne by done.
      destruct (decide (key ∈ keys)) as [Hin|Hin].
      * rewrite decide_True; [done|]. apply elem_of_cons; by right.
      * rewrite decide_False; [done|].
        intros [?|?]%elem_of_cons; done.
Qed.

(** The clearing loop leaves no key, whatever order it ranges in. *)
Lemma range_delete_empty m : range_delete m = ∅.
Proof.
  apply map_eq. intros key. unfold range_delete.
  rewrite delete_each_lookup, lookup_empty.
  case_decide as Hin; [done|].
  destruct (m !! key) as [value|] eqn:Hk; [|done].
  exfalso. apply Hin. apply list_elem_of_fmap.
  exists (key, value). split; [done|]. by apply elem_of_map_to_list.
Qed.

Lemma applyEntry_Insert (key : K) (value : option V) m :
  oplog.applyEntry (oplog.Insert key value) m = <[key := value]> m.
Proof. reflexivity. Qed.

Lemma applyEntry_Delete (key : K) m :
  oplog.applyEntry (oplog.Delete key) m = delete key m.
Proof. reflexivity. Qed.

Lemma applyEntry_Clear m : oplog.applyEntry oplog.Clear m = ∅.
Proof. apply range_delete_empty. Qed.

(** Deleting an absent key changes nothing. *)
Lemma applyEntry_Delete_absent (key : K) m :
  m !! key = None → oplog.applyEntry (oplog.Delete key) m = m.
Proof. intros Hk. rewrite applyEntry_Delete. by apply delete_id. Qed.

Lemma applyEntry_spec_step e m : oplog.applyEntry e m = oplog.spec_step e m.
Proof.
  unfold oplog.applyEntry, oplog.spec_step. destruct (oplog.t e).
  - done.
  - case_decide as Hin; [done|].
    apply delete_id. by apply eq_None_not_Some.
  - apply range_delete_empty.
Qed.

Lemma Log_Apply_cons e (es : list (oplog.entry K V)) (la : option (oplog.entry K V)) m :
  oplog.Log_Apply (oplog.MkLog (e :: es) la) m
  = oplog.Log_Apply (oplog.MkLog es la) (oplog.applyEntry e m).
Proof. reflexivity. Qed.

(** Replaying a log extended by one entry: the old log first, the new
    entry last. *)
Lemma Log_Apply_Push l e m :
  oplog.Log_Apply (oplog.Log_Push l e) m = oplog.applyEntry e (oplog.Log_Apply l m).
Proof. unfold oplog.Log_Apply, oplog.Log_Push. simpl. by rewrite foldl_snoc. Qed.

Lemma Log_Apply_Clear l m : oplog.Log_Apply (oplog.Log_Clear l) m = m.
Proof. reflexivity. Qed.

(** C8. For every operation log and every target map, [Apply] is the
    replay of the specification: the entries in insertion order, an Insert
    entry setting or overwriting its key, a Delete entry removing its key if
    present and doing nothing if it is absent, a Clear entry removing every
    key of the target map. *)
Theorem C8_apply_replays_in_order l m :
  oplog.Log_Apply l m = oplog.spec_replay (oplog.entries l) m.
Proof.
  destruct l as [es la]. unfold oplog.Log_Apply. simpl.
  revert m. induction es as [|e es IH]; intros m; simpl; [done|].
  by rewrite IH, applyEntry_spec_step.
Qed.

End OplogFacts.

(** ** The two map variables *)
Section StoreFacts.
Context {K : Type} `{Countable K} {V : Type}.
Implicit Types (s : store K V) (c : gmap K (option V)) (p q : mapref).

Lemma load_store_at_eq p c s : load p (store_at p c s) = c.
Proof. by destruct p. Qed.

Lemma load_store_at_ne p q c s : p ≠ q → load q (store_at p c s) = load q s.
Proof. by destruct p, q. Qed.

Lemma golookup_Some c (key : K) (value : option V) :
  c !! key = Some value → golookup c key = (value, true).
Proof. unfold golookup. by intros ->. Qed.

Lemma golookup_None c (key : K) : c !! key = None → golookup c key = (None, false).
Proof. unfold golookup. by intros ->. Qed.

(** The found flag is the presence of the key. *)
Lemma golookup_found c (key : K) : snd (golookup c key) = true ↔ is_Some (c !! key).
Proof.
  unfold golookup. destruct (c !! key); simpl; split; done.
Qed.

End StoreFacts.

(** ** The registry engine *)
Section RegistryFacts.
Import Registry.
Context {K : Type} `{Countable K} `{Inhabited K} {V : Type}.
Implicit Types (w : world K V) (m : Map K V) (c : call K V) (cs : list (call K V)).
Implicit Types (hs : list Reader) (rs s : list nat) (r : nat) (key : K).

Lemma Map_swapLocked_readable m : readable (Map_swapLocked m) = writable m.
Proof. reflexivity. Qed.

Lemma Map_swapLocked_writable m : writable (Map_swapLocked m) = readable m.
Proof. reflexivity. Qed.

(** *** Pointer propagation *)

Lemma propagate_length p rs hs :
  length (foldl (fun hs r => Reader_swapReadable r p hs) hs rs) = length hs.
Proof.
  revert hs. induction rs as [|r rs IH]; intros hs; simpl; [done|].
  rewrite IH. apply length_alter.
Qed.

Lemma propagate_closed p rs hs r h :
  foldl (fun hs r => Reader_swapReadable r p hs) hs rs !! r = Some h →
  ∃ h0, hs !! r = Some h0 ∧ closed h = closed h0.
Proof.
  revert hs. induction rs as [|r0 rs IH]; intros hs; simpl.
  - intros Hh. by exists h.
  - intros Hh. apply IH in Hh as (h1 & Hh1 & Hc). unfold Reader_swapReadable in Hh1.
    destruct (decide (r0 = r)) as [->|Hne].
    + rewrite list_lookup_alter_eq in Hh1.
      destruct (hs !! r) as [h0|]; simplify_eq/=. by exists h0.
    + rewrite list_lookup_alter_ne in Hh1 by done. by exists h1.
Qed.

Lemma propagate_ptr p rs hs r h :
  r ∈ rs →
  foldl (fun hs r => Reader_swapReadable r p hs) hs rs !! r = Some h →
  r_readable h = p.
Proof.
  revert hs. induction rs as [|r0 rs IH] using rev_ind; intros hs Hin.
  - by apply not_elem_of_nil in Hin.
  - rewrite foldl_snoc. unfold Reader_swapReadable at 1.
    destruct (decide (r0 = r)) as [->|Hne].
    + rewrite list_lookup_alter_eq.
      destruct (foldl _ hs rs !! r); simpl; [|done]. by intros [= <-].
    + rewrite list_lookup_alter_ne by done.
      apply IH. apply elem_of_app in Hin as [?|Hin]; [done|].
      apply list_elem_of_singleton in Hin. congruence.
Qed.

(** *** The loop of Close *)

(** What [Close] can do to the registry: nothing, or overwrite the first
    position holding the handle with the last element. The slice is never
    shortened, because the slice [remove] returns is dropped. *)
Lemma Close_loop_cases r s idx :
  Close_loop r s idx (drop idx s) = s ∨
  ∃ i x, s !! i = Some r ∧ s !! (length s - 1) = Some x ∧
         Close_loop r s idx (drop idx s) = <[i := x]> s.
Proof.
  remember (drop idx s) as rest eqn:Hrest.
  revert idx Hrest. induction rest as [|reader rest IH]; intros idx Hrest; simpl.
  - by left.
  - assert (s !! idx = Some reader) as Hidx.
    { rewrite <- (Nat.add_0_r idx), <- lookup_drop, <- Hrest. done. }
    case_decide as Heq.
    + subst reader. unfold remove.
      destruct (s !! (length s - 1)) as [x|] eqn:Hlast; [|by left].
      case_decide; [|by left]. right. by exists idx, x.
    + apply IH. rewrite (drop_S s reader idx Hidx) in Hrest. by simplify_eq.
Qed.

Lemma Close_loop_length r s :
  length (Close_loop r s 0 s) = length s.
Proof.
  destruct (Close_loop_cases r s 0) as [Heq|(i & x & _ & _ & Heq)];
    rewrite drop_0 in Heq; rewrite Heq; [done|apply length_insert].
Qed.

(** Close never adds a handle. *)
Lemma Close_loop_subset r s r' :
  r' ∈ Close_loop r s 0 s → r' ∈ s.
Proof.
  destruct (Close_loop_cases r s 0) as [Heq|(i & x & _ & Hx & Heq)];
    rewrite drop_0 in Heq; rewrite Heq; [done|].
  intros (j & Hj)%list_elem_of_lookup.
  destruct (decide (i = j)) as [->|Hne].
  - assert (j < length s).
    { apply lookup_lt_Some in Hj. by rewrite length_insert in Hj. }
    rewrite list_lookup_insert_eq in Hj by done.
    simplify_eq. apply list_elem_of_lookup. eauto.
  - rewrite list_lookup_insert_ne in Hj by done.
    apply list_elem_of_lookup. eauto.
Qed.

(** Close never drops a handle other than the one closed. *)
Lemma Close_loop_keeps r s r' :
  r' ≠ r → r' ∈ s → r' ∈ Close_loop r s 0 s.
Proof.
  intros Hne Hin.
  destruct (Close_loop_cases r s 0) as [Heq|(i & x & Hi & _ & Heq)];
    rewrite drop_0 in Heq; rewrite Heq; [done|].
  apply list_elem_of_lookup in Hin as (j & Hj).
  apply list_elem_of_lookup. exists j.
  rewrite list_lookup_insert_ne; [done|]. intros ->. congruence.
Qed.

(** *** The invariant *)

Lemma inv_NewMap : inv (@NewMap K _ _ V).
Proof.
  split; simpl; try done.
  all: intros r; rewrite elem_of_nil; tauto.
Qed.

Lemma inv_pushAndApply e w : inv w → inv (pushAndApply e w).
Proof.
  intros [Hd Hr Ha Hp Ho]. split; simpl; try done.
  unfold readable_contents, writable_contents in *. simpl.
  rewrite load_store_at_eq, load_store_at_ne by done.
  change (oplog.Log_Apply (oplog.Log_Push (oplog (engine w)) e)
            (load (readable (engine w)) (maps w))
          = oplog.applyEntry e (load (writable (engine w)) (maps w))).
  by rewrite Log_Apply_Push, Hr.
Qed.

(** After a refresh both roles hold what the writable copy held before. *)
Lemma Map_Refresh_contents w :
  inv w →
  readable_contents (Map_Refresh w) = writable_contents w ∧
  writable_contents (Map_Refresh w) = writable_contents w.
Proof.
  intros [Hd Hr _ _ _]. unfold readable_contents, writable_contents in *. simpl.
  rewrite load_store_at_eq, load_store_at_ne by done. by split.
Qed.

Lemma inv_Map_Refresh w : inv w → inv (Map_Refresh w).
Proof.
  intros Hinv. destruct (Map_Refresh_contents w Hinv) as [HR HW].
  destruct Hinv as [Hd Hr Ha Hp Ho]. split.
  - simpl. congruence.
  - rewrite HR, HW. done.
  - simpl. intros r Hin. rewrite propagate_length. by apply Ha.
  - simpl. intros r h Hin Hh. by apply propagate_ptr in Hh.
  - simpl. intros r h Hh. apply propagate_closed in Hh as (h0 & Hh0 & ->). eauto.
Qed.

Lemma inv_Map_Reader w : inv w → inv (snd (Map_Reader w)).
Proof.
  intros [Hd Hr Ha Hp Ho]. split; simpl; try done.
  - intros r [Hin| ->%list_elem_of_singleton]%elem_of_app; rewrite length_app; simpl.
    + apply Ha in Hin. lia.
    + lia.
  - intros r h [Hin| ->%list_elem_of_singleton]%elem_of_app Hh.
    + rewrite lookup_app_l in Hh by by apply Ha. by apply (Hp r).
    + rewrite list_lookup_middle in Hh by done. by simplify_eq.
  - intros r h Hh. apply lookup_app_Some in Hh as [Hh|[_ Hh]]; [by eapply Ho|].
    apply list_lookup_singleton_Some in Hh as [_ <-]. done.
Qed.

Lemma inv_Reader_Close r w : inv w → inv (Reader_Close r w).
Proof.
  intros [Hd Hr Ha Hp Ho]. split; simpl; try done.
  - intros r' Hin%Close_loop_subset. by apply Ha.
  - intros r' h Hin%Close_loop_subset. by apply Hp.
Qed.

Lemma inv_exec w c : inv w → inv (exec w c).
Proof.
  intros Hinv. destruct c; simpl.
  - by apply inv_pushAndApply.
  - by apply inv_pushAndApply.
  - by apply inv_pushAndApply.
  - by apply inv_Map_Refresh.
  - by apply inv_Map_Reader.
  - by apply inv_Reader_Close.
Qed.

Lemma run_snoc cs c : run (cs ++ [c]) = exec (run cs) c.
Proof. unfold run. by rewrite foldl_snoc. Qed.

Lemma run_app cs cs' : run (cs ++ cs') = foldl exec (run cs) cs'.
Proof. unfold run. by rewrite foldl_app. Qed.

(** Every heap a sequence of calls reaches satisfies the invariant. *)
Lemma inv_run cs : inv (run cs).
Proof.
  induction cs as [|c cs IH] using rev_ind; [apply inv_NewMap|].
  rewrite run_snoc. by apply inv_exec.
Qed.

(** A registered handle reads the readable copy. *)
Lemma registered_Get w r key :
  inv w → registered r w →
  Reader_Get r key w = Ok (golookup (readable_contents w) key) ∧
  Reader_Has r key w = Ok (snd (golookup (readable_contents w) key)).
Proof.
  intros [Hd Hr Ha Hp Ho] Hin. unfold Reader_Get, Reader_Has, registered in *.
  destruct (lookup_lt_is_Some_2 (handles w) r (Ha r Hin)) as [h Hh].
  rewrite Hh, (Ho r h Hh), (Hp r h Hin Hh). done.
Qed.

(** X3. A handle that was handed out and never closed is registered. *)
Lemma live_handle_registered cs r :
  r < length (handles (run cs)) → CallClose r ∉ cs → registered r (run cs).
Proof.
  unfold registered.
  induction cs as [|c cs IH] using rev_ind; [simpl; lia|].
  rewrite run_snoc. intros Hlen Hcl.
  assert (CallClose r ∉ cs) as Hcs by (intros ?; apply Hcl, elem_of_app; by left).
  assert (c ≠ CallClose r) as Hc.
  { intros ->. apply Hcl, elem_of_app. right. by apply list_elem_of_singleton. }
  destruct c; simpl in *; try by apply IH.
  - rewrite propagate_length in Hlen. by apply IH.
  - rewrite length_app in Hlen. simpl in Hlen. apply elem_of_app.
    destruct (decide (r = length (handles (run cs)))) as [->|Hne].
    + right. by apply list_elem_of_singleton.
    + left. apply IH; [lia|done].
  - apply Close_loop_keeps; [congruence|]. by apply IH.
Qed.

End RegistryFacts.

Section RegistryClaims.
Import Registry.
Context {K : Type} `{Countable K} `{Inhabited K} {V : Type}.
Implicit Types (w : world K V) (c : call K V) (cs ms : list (call K V)).
Implicit Types (r : nat) (key : K).

(** C1. In every heap a sequence of calls reaches, for every handle in the
    registry when [Refresh] runs: once the refresh has returned, the
    handle's [Get] and [Has] return, for every key, what a lookup in the
    writable copy gave immediately before the refresh (so the handle sees
    exactly that key set and those values). By [live_handle_registered]
    this covers every handle handed out earlier and not closed. *)
Theorem C1_refresh_publishes_writable cs r key :
  registered r (run cs) →
  Reader_Get r key (Map_Refresh (run cs))
    = Ok (golookup (writable_contents (run cs)) key) ∧
  Reader_Has r key (Map_Refresh (run cs))
    = Ok (snd (golookup (writable_contents (run cs)) key)).
Proof.
  intros Hreg. pose proof (inv_run cs) as Hinv.
  destruct (Map_Refresh_contents _ Hinv) as [<- _].
  apply registered_Get; [by apply inv_Map_Refresh|done].
Qed.

(** C2. In every heap reached by a sequence of calls, replaying the
    buffered log, in order, on the contents of the readable copy gives
    exactly the contents of the writable copy; and right after a refresh
    the log is empty and the two copies are equal (same keys, same
    values), both being what the writable copy was. *)
Theorem C2_replay_invariant cs :
  oplog.Log_Apply (oplog (engine (run cs))) (readable_contents (run cs))
    = writable_contents (run cs) ∧
  oplog.entries (oplog (engine (Map_Refresh (run cs)))) = [] ∧
  readable_contents (Map_Refresh (run cs)) = writable_contents (Map_Refresh (run cs)) ∧
  readable_contents (Map_Refresh (run cs)) = writable_contents (run cs).
Proof.
  pose proof (inv_run cs) as Hinv.
  destruct (Map_Refresh_contents _ Hinv) as [HR HW].
  split; [apply Hinv|]. split; [done|]. by rewrite HR, HW.
Qed.

(** Mutations leave the registry, the handles and the readable copy as
    they are. *)
Lemma mutations_frame w ms :
  inv w → forallb is_mutation ms = true →
  readers (engine (foldl exec w ms)) = readers (engine w) ∧
  readable_contents (foldl exec w ms) = readable_contents w.
Proof.
  revert w. induction ms as [|c ms IH]; intros w Hinv Hms; simpl in *; [done|].
  apply andb_prop in Hms as [Hc Hms].
  assert (readers (engine (exec w c)) = readers (engine w) ∧
          readable_contents (exec w c) = readable_contents w) as [Hrs Hrc].
  { destruct Hinv as [Hd _ _ _ _].
    destruct c; try done; simpl; (split; [done|]);
      unfold readable_contents; simpl; by rewrite load_store_at_ne. }
  destruct (IH (exec w c)) as [-> ->]; [by apply inv_exec|done|done].
Qed.

(** C3. For every sequence of insert, delete and clear calls with no
    refresh among or after them, a handle registered before them returns
    from [Get] and [Has] what it returned before them, for every key; in
    particular [Has] is false for a key the readable copy did not hold,
    that is, a key only those calls touched. *)
Theorem C3_read_isolation cs ms r key :
  registered r (run cs) →
  forallb is_mutation ms = true →
  Reader_Get r key (run (cs ++ ms)) = Reader_Get r key (run cs) ∧
  Reader_Has r key (run (cs ++ ms)) = Reader_Has r key (run cs) ∧
  (readable_contents (run cs) !! key = None →
   Reader_Has r key (run (cs ++ ms)) = Ok false ∧
   Reader_Get r key (run (cs ++ ms)) = Ok (None, false)).
Proof.
  intros Hreg Hms. pose proof (inv_run cs) as Hinv.
  pose proof (inv_run (cs ++ ms)) as Hinv'.
  destruct (mutations_frame _ ms Hinv Hms) as [Hrs Hrc].
  rewrite <- run_app in Hrs, Hrc.
  assert (registered r (run (cs ++ ms))) as Hreg'.
  { unfold registered in *. by rewrite Hrs. }
  destruct (registered_Get _ r key Hinv Hreg) as [HG HH].
  destruct (registered_Get _ r key Hinv' Hreg') as [HG' HH'].
  rewrite HG, HH, HG', HH', Hrc. split; [done|]. split; [done|].
  intros Hk. by rewrite (golookup_None _ _ Hk).
Qed.

(** X1. [Close] writes to no handle: what [Get] and [Has] return on a handle
    is the same before and after closing it, for every heap. *)
Lemma Reader_Close_keeps_reads w r key :
  Reader_Get r key (Reader_Close r w) = Reader_Get r key w ∧
  Reader_Has r key (Reader_Close r w) = Reader_Has r key w.
Proof. done. Qed.

(** X2. [Close] never shortens the registry. *)
Lemma Reader_Close_registry_length w r :
  length (readers (engine (Reader_Close r w))) = length (readers (engine w)).
Proof. apply Close_loop_length. Qed.

(** Closing the handle that stands last in the registry (in particular
    the only one) changes nothing. *)
Lemma Reader_Close_last w r (rs : list nat) :
  readers (engine w) = rs ++ [r] → r ∉ rs →
  readers (engine (Reader_Close r w)) = readers (engine w).
Proof.
  intros Hrs Hnotin. simpl.
  destruct (Close_loop_cases r (readers (engine w)) 0) as [Heq|(i & x & Hi & Hx & Heq)];
    rewrite drop_0 in Heq; rewrite Heq; [done|].
  rewrite Hrs in *. rewrite length_app in Hx. simpl in Hx.
  replace (length rs + 1 - 1) with (length rs) in Hx by lia.
  rewrite list_lookup_middle in Hx by done. simplify_eq.
  apply list_insert_id. done.
Qed.

(** In the registry engine [Delete] returns whether the writable copy held
    the key, and the writable copy does not hold it afterwards. *)
Lemma Registry_Delete_reports_presence w key :
  (fst (Map_Delete key w) = true ↔ is_Some (writable_contents w !! key)) ∧
  writable_contents (snd (Map_Delete key w)) !! key = None.
Proof.
  split; [apply golookup_found|].
  unfold writable_contents. simpl. rewrite load_store_at_eq.
  rewrite applyEntry_Delete. apply lookup_delete_eq.
Qed.

(** A key no call inserted is in neither copy. *)
Lemma never_inserted_absent cs key :
  (∀ value, CallInsert key value ∉ cs) →
  readable_contents (run cs) !! key = None ∧ writable_contents (run cs) !! key = None.
Proof.
  induction cs as [|c cs IH] using rev_ind; intros Hno; [done|].
  destruct IH as [HR HW].
  { intros value Hin. apply (Hno value), elem_of_app. by left. }
  rewrite run_snoc. pose proof (inv_run cs) as Hinv.
  destruct c as [key' value|key'| | | |r']; simpl.
  - assert (key' ≠ key) as Hne.
    { intros ->. apply (Hno value), elem_of_app. right. by apply list_elem_of_singleton. }
    destruct Hinv as [Hd _ _ _ _].
    unfold readable_contents, writable_contents in *. simpl.
    rewrite load_store_at_eq, load_store_at_ne by done.
    rewrite applyEntry_Insert, lookup_insert_ne by done. done.
  - destruct Hinv as [Hd _ _ _ _].
    unfold readable_contents, writable_contents in *. simpl.
    rewrite load_store_at_eq, load_store_at_ne by done.
    rewrite applyEntry_Delete. split; [done|].
    rewrite lookup_delete. by case_decide.
  - destruct Hinv as [Hd _ _ _ _].
    unfold readable_contents, writable_contents in *. simpl.
    rewrite load_store_at_eq, load_store_at_ne by done.
    by rewrite applyEntry_Clear, lookup_empty.
  - destruct (Map_Refresh_contents _ Hinv) as [-> ->]. done.
  - done.
  - done.
Qed.

End RegistryClaims.

(** ** The automatic-refresh engine *)
Section AutoRefreshFacts.
Import AutoRefresh.
Context {K : Type} `{Countable K} `{Inhabited K} {V : Type}.
Implicit Types (w : world K V) (m : Map K V) (c : call K V) (cs : list (call K V)).
Implicit Types (key : K) (options : list OptionFunc).

(** No wrap-around below the largest [int]. *)
Lemma wrap_int_succ (z : Z) :
  (- 2 ^ 63 ≤ z)%Z → (z < max_int)%Z → wrap_int (z + 1) = (z + 1)%Z.
Proof.
  unfold wrap_int, max_int. intros Hlo Hhi.
  rewrite Z.mod_small; lia.
Qed.

Lemma Map_observeWrite_cases w :
  Map_observeWrite w = if crosses w then Map_Refresh (counted w) else counted w.
Proof. reflexivity. Qed.

Lemma auto_inv_NewMap options : inv (@NewMap K _ _ V options).
Proof. split; simpl; done. Qed.

Lemma auto_inv_pushAndApply e w : inv w → inv (pushAndApply e w).
Proof.
  intros [Hd Hr]. split; simpl; [done|].
  unfold readable_contents, writable_contents in *. simpl.
  rewrite load_store_at_eq, load_store_at_ne by done.
  change (oplog.Log_Apply (oplog.Log_Push (oplog (engine w)) e)
            (load (readable (engine w)) (maps w))
          = oplog.applyEntry e (load (writable (engine w)) (maps w))).
  by rewrite Log_Apply_Push, Hr.
Qed.

Lemma auto_inv_counted w : inv w → inv (counted w).
Proof. intros [Hd Hr]. by split. Qed.

(** After a refresh both roles hold what the writable copy held before. *)
Lemma auto_Refresh_contents w :
  inv w →
  readable_contents (Map_Refresh w) = writable_contents w ∧
  writable_contents (Map_Refresh w) = writable_contents w.
Proof.
  intros [Hd Hr]. unfold readable_contents, writable_contents in *. simpl.
  rewrite load_store_at_eq, load_store_at_ne by done. by split.
Qed.

Lemma auto_inv_Refresh w : inv w → inv (Map_Refresh w).
Proof.
  intros Hinv. destruct (auto_Refresh_contents w Hinv) as [HR HW].
  destruct Hinv as [Hd Hr]. split.
  - simpl. congruence.
  - rewrite HR, HW. done.
Qed.

Lemma auto_inv_observeWrite w : inv w → inv (Map_observeWrite w).
Proof.
  intros Hinv. rewrite Map_observeWrite_cases.
  destruct (crosses w); auto using auto_inv_Refresh, auto_inv_counted.
Qed.

(** Counting a write, with or without the refresh it may trigger, leaves
    the contents of the writable copy as they are. *)
Lemma auto_observeWrite_writable w :
  inv w → writable_contents (Map_observeWrite w) = writable_contents w.
Proof.
  intros Hinv. rewrite Map_observeWrite_cases. destruct (crosses w); [|done].
  by destruct (auto_Refresh_contents _ (auto_inv_counted _ Hinv)) as [_ ->].
Qed.

Lemma auto_observeWrite_readable w :
  inv w →
  readable_contents (Map_observeWrite w)
  = if crosses w then writable_contents w else readable_contents w.
Proof.
  intros Hinv. rewrite Map_observeWrite_cases. destruct (crosses w); [|done].
  by destruct (auto_Refresh_contents _ (auto_inv_counted _ Hinv)) as [-> _].
Qed.

Lemma auto_inv_exec w c : inv w → inv (exec w c).
Proof.
  intros Hinv. destruct c; simpl.
  - by apply auto_inv_observeWrite, auto_inv_pushAndApply.
  - by apply auto_inv_observeWrite, auto_inv_pushAndApply.
  - by apply auto_inv_observeWrite, auto_inv_pushAndApply.
  - by apply auto_inv_Refresh.
Qed.

Lemma auto_run_snoc options cs c : run options (cs ++ [c]) = exec (run options cs) c.
Proof. unfold run. by rewrite foldl_snoc. Qed.

(** Every heap a sequence of calls reaches satisfies the invariant. *)
Lemma auto_inv_run options cs : inv (run options cs).
Proof.
  induction cs as [|c cs IH] using rev_ind; [apply auto_inv_NewMap|].
  rewrite auto_run_snoc. by apply auto_inv_exec.
Qed.

Lemma auto_pushAndApply_writable e w :
  writable_contents (pushAndApply e w) = oplog.applyEntry e (writable_contents w).
Proof. unfold writable_contents. simpl. by rewrite load_store_at_eq. Qed.

Lemma auto_pushAndApply_readable e w :
  inv w → readable_contents (pushAndApply e w) = readable_contents w.
Proof.
  intros [Hd _]. unfold readable_contents. simpl. by rewrite load_store_at_ne.
Qed.

(** In the automatic-refresh engine [Delete] returns whether the writable
    copy held the key, and the writable copy (whichever map has that role
    when [Delete] returns) does not hold it afterwards. *)
Lemma auto_Delete_reports_presence w key :
  inv w →
  (fst (Map_Delete key w) = true ↔ is_Some (writable_contents w !! key)) ∧
  writable_contents (snd (Map_Delete key w)) !! key = None.
Proof.
  intros Hinv. split; [apply golookup_found|]. simpl.
  rewrite auto_observeWrite_writable by by apply auto_inv_pushAndApply.
  rewrite auto_pushAndApply_writable, applyEntry_Delete. apply lookup_delete_eq.
Qed.

(** A key no call inserted is in neither copy. *)
Lemma auto_never_inserted_absent options cs key :
  (∀ value, CallInsert key value ∉ cs) →
  readable_contents (run options cs) !! key = None ∧
  writable_contents (run options cs) !! key = None.
Proof.
  induction cs as [|c cs IH] using rev_ind; intros Hno; [done|].
  destruct IH as [HR HW].
  { intros value Hin. apply (Hno value), elem_of_app. by left. }
  rewrite auto_run_snoc. pose proof (auto_inv_run options cs) as Hinv.
  assert (∀ e, oplog.applyEntry e (writable_contents (run options cs)) !! key = None →
          readable_contents (Map_observeWrite (pushAndApply e (run options cs))) !! key = None ∧
          writable_contents (Map_observeWrite (pushAndApply e (run options cs))) !! key = None)
    as Hstep.
  { intros e He. pose proof (auto_inv_pushAndApply e _ Hinv) as Hinv'.
    rewrite auto_observeWrite_writable, auto_observeWrite_readable by done.
    rewrite auto_pushAndApply_writable, auto_pushAndApply_readable by done.
    by destruct (crosses _). }
  destruct c as [key' value|key'| |]; simpl.
  - apply Hstep. rewrite applyEntry_Insert, lookup_insert_ne; [done|].
    intros ->. apply (Hno value), elem_of_app. right. by apply list_elem_of_singleton.
  - apply Hstep. rewrite applyEntry_Delete, lookup_delete. by case_decide.
  - apply Hstep. by rewrite applyEntry_Clear.
  - destruct (auto_Refresh_contents _ Hinv) as [-> ->]. done.
Qed.

End AutoRefreshFacts.

Section AutoRefreshClaims.
Import AutoRefresh.
Context {K : Type} `{Countable K} `{Inhabited K} {V : Type}.
Implicit Types (w : world K V) (c : call K V) (cs : list (call K V)).
Implicit Types (key : K) (options : list OptionFunc).

(** C4. An engine made with [maxReplicationWriteLag = 3], then four
    inserts on four distinct keys and no call of [Refresh]: after the third
    insert the counter is 3 and the readable copy is still empty; the fourth
    insert makes the counter 4, which exceeds 3, so the refresh runs inside
    that insert; when it returns the counter is 0, the log is empty, and
    [Has] and [Get] find all four keys with their values. Both map
    variables hold the four keys then, so a reader sees them whichever of
    the two it points to. *)
Theorem C4_fourth_insert_refreshes (k1 k2 k3 k4 : K) (v1 v2 v3 v4 : option V) :
  NoDup [k1; k2; k3; k4] →
  let w0 : world K V := NewMap [WithMaxReplicationWriteLag 3] in
  let w3 := Map_Insert k3 v3 (Map_Insert k2 v2 (Map_Insert k1 v1 w0)) in
  let w4 := Map_Insert k4 v4 w3 in
  ((∀ key, Map_Has key w3 = false) ∧
   replicationWriteLag (engine w3) = 3%Z ∧
   crosses (pushAndApply (oplog.Insert k4 v4) w3) = true) ∧
  (replicationWriteLag (engine w4) = 0%Z ∧
   oplog.entries (oplog (engine w4)) = []) ∧
  (Map_Has k1 w4 = true ∧ Map_Has k2 w4 = true ∧
   Map_Has k3 w4 = true ∧ Map_Has k4 w4 = true) ∧
  (Map_Get k1 w4 = (v1, true) ∧ Map_Get k2 w4 = (v2, true) ∧
   Map_Get k3 w4 = (v3, true) ∧ Map_Get k4 w4 = (v4, true)) ∧
  at_r (maps w4) = at_w (maps w4).
Proof.
  intros Hnd w0 w3 w4.
  assert (k1 ≠ k2 ∧ k1 ≠ k3 ∧ k1 ≠ k4 ∧ k2 ≠ k3 ∧ k2 ≠ k4 ∧ k3 ≠ k4)
    as (H12 & H13 & H14 & H23 & H24 & H34).
  { apply NoDup_cons in Hnd as [Hk1 Hnd]. apply NoDup_cons in Hnd as [Hk2 Hnd].
    apply NoDup_cons in Hnd as [Hk3 _].
    apply not_elem_of_cons in Hk1 as (? & (? & (? & _)%not_elem_of_cons)%not_elem_of_cons).
    apply not_elem_of_cons in Hk2 as (? & (? & _)%not_elem_of_cons).
    apply not_elem_of_cons in Hk3 as (? & _). done. }
  assert (w3 = {| maps := {| at_r := ∅;
                             at_w := <[k3 := v3]> (<[k2 := v2]> (<[k1 := v1]> ∅)) |};
                  engine := {| readable := addr_r; writable := addr_w;
                               replicationWriteLag := 3; maxReplicationWriteLag := 3;
                               oplog := oplog.MkLog
                                 [oplog.Insert k1 v1; oplog.Insert k2 v2; oplog.Insert k3 v3]
                                 (Some (oplog.Insert k3 v3)) |} |}) as Hw3
    by reflexivity.
  assert (w4 = {| maps := {| at_r := <[k4 := v4]> (<[k3 := v3]> (<[k2 := v2]> (<[k1 := v1]> ∅)));
                             at_w := <[k4 := v4]> (<[k3 := v3]> (<[k2 := v2]> (<[k1 := v1]> ∅))) |};
                  engine := {| readable := addr_w; writable := addr_r;
                               replicationWriteLag := 0; maxReplicationWriteLag := 3;
                               oplog := oplog.MkLog [] (Some (oplog.Insert k4 v4)) |} |}) as Hw4.
  { unfold w4. rewrite Hw3. reflexivity. }
  clearbody w3 w4. subst w3 w4.
  split; [|split; [|split; [|split]]].
  - split; [|split]; [|reflexivity|reflexivity].
    intros key. unfold Map_Has. simpl. reflexivity.
  - split; reflexivity.
  - unfold Map_Has, golookup. simpl.
    rewrite lookup_insert_eq.
    rewrite (lookup_insert_ne _ k4 k3), lookup_insert_eq by done.
    rewrite (lookup_insert_ne _ k4 k2), (lookup_insert_ne _ k3 k2), lookup_insert_eq by done.
    rewrite (lookup_insert_ne _ k4 k1), (lookup_insert_ne _ k3 k1),
      (lookup_insert_ne _ k2 k1), lookup_insert_eq by done.
    repeat split.
  - unfold Map_Get, golookup. simpl.
    rewrite lookup_insert_eq.
    rewrite (lookup_insert_ne _ k4 k3), lookup_insert_eq by done.
    rewrite (lookup_insert_ne _ k4 k2), (lookup_insert_ne _ k3 k2), lookup_insert_eq by done.
    rewrite (lookup_insert_ne _ k4 k1), (lookup_insert_ne _ k3 k1),
      (lookup_insert_ne _ k2 k1), lookup_insert_eq by done.
    repeat split.
  - reflexivity.
Qed.

Lemma store_at_load (p : mapref) (s : store K V) : store_at p (load p s) s = s.
Proof. by destruct p, s. Qed.

(** C10, as the code has it. For every key absent from the writable copy,
    [Delete] returns false and leaves the contents of the writable copy
    unchanged; its body appends one Delete entry to the log and changes no
    map, and the counter is incremented. When no threshold is configured,
    or the incremented counter does not exceed it, [Delete] returns there:
    both map variables are unchanged, the log is one Delete entry longer
    and the counter one higher. When the incremented counter exceeds the
    configured threshold, the refresh runs before [Delete] returns: the
    readable copy then holds what the writable copy held, the log is empty
    and the counter is zero. *)
Theorem C10_absent_delete_is_counted options cs key :
  let w := run options cs in
  let body := pushAndApply (oplog.Delete key) w in
  let w' := snd (Map_Delete key w) in
  let lag := wrap_int (replicationWriteLag (engine w) + 1) in
  writable_contents w !! key = None →
  fst (Map_Delete key w) = false ∧
  writable_contents w' = writable_contents w ∧
  (maps body = maps w ∧
   oplog.entries (oplog (engine body)) = oplog.entries (oplog (engine w)) ++ [oplog.Delete key]) ∧
  w' = (if crosses body then Map_Refresh (counted body) else counted body) ∧
  replicationWriteLag (engine (counted body)) = lag ∧
  if (0 <? maxReplicationWriteLag (engine w))%Z && (maxReplicationWriteLag (engine w) <? lag)%Z
  then readable_contents w' = writable_contents w ∧
       oplog.entries (oplog (engine w')) = [] ∧
       replicationWriteLag (engine w') = 0%Z
  else maps w' = maps w ∧
       oplog.entries (oplog (engine w'))
         = oplog.entries (oplog (engine w)) ++ [oplog.Delete key] ∧
       replicationWriteLag (engine w') = lag.
Proof.
  intros w body w' lag Habs. pose proof (auto_inv_run options cs) as Hinv.
  fold w in Hinv.
  assert (maps body = maps w) as Hmaps.
  { unfold body, pushAndApply. simpl. rewrite applyEntry_Delete_absent by done.
    apply store_at_load. }
  assert (inv body) as Hinvb by by apply auto_inv_pushAndApply.
  assert (writable_contents body = writable_contents w) as HWb.
  { unfold writable_contents. by rewrite Hmaps. }
  assert (readable_contents body = readable_contents w) as HRb.
  { unfold readable_contents. by rewrite Hmaps. }
  split. { unfold Map_Delete, golookup. simpl. fold (writable_contents w). by rewrite Habs. }
  split. { unfold w'. simpl. by rewrite auto_observeWrite_writable. }
  split; [done|]. split; [done|]. split; [done|].
  change ((0 <? maxReplicationWriteLag (engine w))%Z &&
          (maxReplicationWriteLag (engine w) <? lag)%Z) with (crosses body).
  change w' with (Map_observeWrite body). rewrite Map_observeWrite_cases.
  destruct (crosses body).
  - destruct (auto_Refresh_contents _ (auto_inv_counted _ Hinvb)) as [-> _].
    split; [|done]. exact HWb.
  - done.
Qed.

(** X4. In every heap of the automatic-refresh engine that a sequence of
    calls reaches, automatic refreshes included, replaying the log on the
    readable copy gives the writable copy. *)
Theorem auto_replay_invariant options cs :
  oplog.Log_Apply (oplog (engine (run options cs))) (readable_contents (run options cs))
  = writable_contents (run options cs).
Proof. apply auto_inv_run. Qed.

End AutoRefreshClaims.

(** ** Claims that hold of both engines *)
Section BothEngines.
Context {K : Type} `{Countable K} `{Inhabited K} {V : Type}.

(** C7. For every key and every heap of either engine, [Delete] returns
    true exactly when the key was in the writable copy immediately before
    the deletion was applied, and once [Delete] has returned the key is not
    in the writable copy. In the automatic-refresh engine the heap is one a
    sequence of calls reaches, and the writable copy afterwards is the map
    that has that role when [Delete] returns. *)
Theorem C7_delete_reports_prior_presence :
  (∀ (w : Registry.world K V) (key : K),
     (fst (Registry.Map_Delete key w) = true
      ↔ is_Some (Registry.writable_contents w !! key)) ∧
     Registry.writable_contents (snd (Registry.Map_Delete key w)) !! key = None) ∧
  (∀ (options : list AutoRefresh.OptionFunc) (cs : list (AutoRefresh.call K V)) (key : K),
     (fst (AutoRefresh.Map_Delete key (AutoRefresh.run options cs)) = true
      ↔ is_Some (AutoRefresh.writable_contents (AutoRefresh.run options cs) !! key)) ∧
     AutoRefresh.writable_contents
       (snd (AutoRefresh.Map_Delete key (AutoRefresh.run options cs))) !! key = None).
Proof.
  split.
  - intros w key. apply Registry_Delete_reports_presence.
  - intros options cs key. apply auto_Delete_reports_presence, auto_inv_run.
Qed.

(** C9. The found flag tells presence, the value does not. With a key
    inserted with a nil value and then exposed by a refresh, [Get] on the
    engine and on a registered handle returns (nil, true); with a key no
    call ever inserted, and with a key deleted before the last refresh,
    it returns (nil, false). *)
Theorem C9_found_flag_tells_presence
    (options : list AutoRefresh.OptionFunc) (acs : list (AutoRefresh.call K V))
    (rcs : list (Registry.call K V)) (r : nat) (key : K) :
  Registry.registered r (Registry.run rcs) →
  (AutoRefresh.Map_Get key
     (AutoRefresh.Map_Refresh (AutoRefresh.Map_Insert key None (AutoRefresh.run options acs)))
   = (None, true) ∧
   Registry.Reader_Get r key
     (Registry.Map_Refresh (Registry.Map_Insert key None (Registry.run rcs)))
   = Ok (None, true)) ∧
  (((∀ value, AutoRefresh.CallInsert key value ∉ acs) →
    AutoRefresh.Map_Get key (AutoRefresh.run options acs) = (None, false)) ∧
   ((∀ value, Registry.CallInsert key value ∉ rcs) →
    Registry.Reader_Get r key (Registry.run rcs) = Ok (None, false))) ∧
  (AutoRefresh.Map_Get key
     (AutoRefresh.Map_Refresh (snd (AutoRefresh.Map_Delete key (AutoRefresh.run options acs))))
   = (None, false) ∧
   Registry.Reader_Get r key
     (Registry.Map_Refresh (snd (Registry.Map_Delete key (Registry.run rcs))))
   = Ok (None, false)).
Proof.
  intros Hreg.
  pose proof (auto_inv_run options acs) as Hai. pose proof (inv_run rcs) as Hri.
  assert (∀ e, Registry.Reader_Get r key
                 (Registry.Map_Refresh (Registry.pushAndApply e (Registry.run rcs)))
               = Ok (golookup (oplog.applyEntry e
                       (Registry.writable_contents (Registry.run rcs))) key)) as Hhandle.
  { intros e. pose proof (inv_pushAndApply e _ Hri) as Hinv.
    destruct (registered_Get _ r key (inv_Map_Refresh _ Hinv)) as [-> _]; [done|].
    destruct (Map_Refresh_contents _ Hinv) as [-> _].
    unfold Registry.writable_contents. simpl. by rewrite load_store_at_eq. }
  assert (∀ e, AutoRefresh.Map_Get key
                 (AutoRefresh.Map_Refresh
                    (AutoRefresh.Map_observeWrite
                       (AutoRefresh.pushAndApply e (AutoRefresh.run options acs))))
               = golookup (oplog.applyEntry e
                       (AutoRefresh.writable_contents (AutoRefresh.run options acs))) key)
    as Hengine.
  { intros e. pose proof (auto_inv_pushAndApply e _ Hai) as Hinv.
    pose proof (auto_inv_observeWrite _ Hinv) as Hinv'.
    change (AutoRefresh.Map_Get key ?w) with (golookup (AutoRefresh.readable_contents w) key).
    destruct (auto_Refresh_contents _ Hinv') as [-> _].
    by rewrite auto_observeWrite_writable, auto_pushAndApply_writable. }
  split; [|split].
  - split.
    + unfold AutoRefresh.Map_Insert. rewrite Hengine, applyEntry_Insert.
      apply golookup_Some, lookup_insert_eq.
    + unfold Registry.Map_Insert. rewrite Hhandle, applyEntry_Insert.
      by rewrite (golookup_Some _ _ None) by apply lookup_insert_eq.
  - split.
    + intros Hno. apply golookup_None.
      by destruct (auto_never_inserted_absent options acs key Hno).
    + intros Hno. destruct (registered_Get _ r key Hri Hreg) as [-> _].
      destruct (never_inserted_absent rcs key Hno) as [HR _].
      by rewrite (golookup_None _ _ HR).
  - split.
    + simpl. rewrite Hengine, applyEntry_Delete.
      apply golookup_None, lookup_delete_eq.
    + simpl. rewrite Hhandle, applyEntry_Delete.
      by rewrite golookup_None by apply lookup_delete_eq.
Qed.

End BothEngines.

(** ** The properties on concrete runs (string keys, as in the tests) *)

(** One handle, then one insert that no refresh has published. *)
Definition trace_one_reader : list (Registry.call string nat) :=
  [Registry.CallReader; Registry.CallInsert "foo" (Some 1)].

(** The writes of the map test, before its second refresh. *)
Definition trace_two_writes : list (Registry.call string nat) :=
  [Registry.CallInsert "bar" (Some 2); Registry.CallDelete "foo"].

(** A handle is handed out, a key is published, the handle is closed. *)
Definition trace_close_then_read : list (Registry.call string nat) :=
  [Registry.CallReader; Registry.CallInsert "foo" (Some 1); Registry.CallRefresh;
   Registry.CallClose 0].

(** Two handles are handed out and the second is closed. *)
Definition trace_close_last : list (Registry.call string nat) :=
  [Registry.CallReader; Registry.CallReader; Registry.CallClose 1].

(** One handle is handed out and closed. *)
Definition trace_close_only : list (Registry.call string nat) :=
  [Registry.CallReader; Registry.CallClose 0].

(** Three handles are handed out and the first is closed. *)
Definition trace_close_first : list (Registry.call string nat) :=
  [Registry.CallReader; Registry.CallReader; Registry.CallReader; Registry.CallClose 0].

(** An engine with threshold 1 after one insert: the next write crosses. *)
Definition world_at_threshold : AutoRefresh.world string nat :=
  AutoRefresh.run [AutoRefresh.WithMaxReplicationWriteLag 1]
                  [AutoRefresh.CallInsert "a" (Some 1)].

Lemma C1_witness :
  Registry.Reader_Get 0 "foo" (Registry.Map_Refresh (Registry.run trace_one_reader))
    = Ok (Some 1, true) ∧
  Registry.Reader_Has 0 "foo" (Registry.Map_Refresh (Registry.run trace_one_reader))
    = Ok true.
Proof.
  assert (Registry.registered 0 (Registry.run trace_one_reader)) as Hreg
    by (apply list_elem_of_singleton; reflexivity).
  exact (C1_refresh_publishes_writable trace_one_reader 0 "foo" Hreg).
Defined.

Lemma C3_witness :
  Registry.Reader_Get 0 "bar" (Registry.run (trace_one_reader ++ trace_two_writes))
    = Registry.Reader_Get 0 "bar" (Registry.run trace_one_reader) ∧
  Registry.Reader_Has 0 "bar" (Registry.run (trace_one_reader ++ trace_two_writes))
    = Registry.Reader_Has 0 "bar" (Registry.run trace_one_reader) ∧
  (Registry.readable_contents (Registry.run trace_one_reader) !! "bar" = None →
   Registry.Reader_Has 0 "bar" (Registry.run (trace_one_reader ++ trace_two_writes))
     = Ok false ∧
   Registry.Reader_Get 0 "bar" (Registry.run (trace_one_reader ++ trace_two_writes))
     = Ok (None, false)).
Proof.
  assert (Registry.registered 0 (Registry.run trace_one_reader)) as Hreg
    by (apply list_elem_of_singleton; reflexivity).
  exact (C3_read_isolation trace_one_reader trace_two_writes 0 "bar" Hreg eq_refl).
Defined.

Lemma C4_witness :
  let w4 : AutoRefresh.world string nat :=
    AutoRefresh.run [AutoRefresh.WithMaxReplicationWriteLag 3]
      [AutoRefresh.CallInsert "a" (Some 1); AutoRefresh.CallInsert "b" (Some 2);
       AutoRefresh.CallInsert "c" (Some 3); AutoRefresh.CallInsert "d" None] in
  AutoRefresh.replicationWriteLag (AutoRefresh.engine w4) = 0%Z ∧
  AutoRefresh.Map_Has "a" w4 = true ∧ AutoRefresh.Map_Has "b" w4 = true ∧
  AutoRefresh.Map_Has "c" w4 = true ∧ AutoRefresh.Map_Has "d" w4 = true ∧
  AutoRefresh.Map_Get "d" w4 = (None, true).
Proof.
  assert (NoDup ["a"; "b"; "c"; "d"]) as Hnd by (apply (bool_decide_unpack _); vm_compute; exact I).
  destruct (C4_fourth_insert_refreshes "a" "b" "c" "d" (Some 1) (Some 2) (Some 3) None Hnd)
    as (_ & (Hlag & _) & (Ha & Hb & Hc & Hd) & (_ & _ & _ & Hg) & _).
  exact (conj Hlag (conj Ha (conj Hb (conj Hc (conj Hd Hg))))).
Defined.

Lemma C9_witness :
  (AutoRefresh.Map_Get "nil"
     (AutoRefresh.Map_Refresh (AutoRefresh.Map_Insert "nil" None world_at_threshold))
   = (None, true) ∧
   Registry.Reader_Get 0 "nil"
     (Registry.Map_Refresh (Registry.Map_Insert "nil" None (Registry.run trace_one_reader)))
   = Ok (None, true)) ∧
  (AutoRefresh.Map_Get "nil" world_at_threshold = (None, false) ∧
   Registry.Reader_Get 0 "nil" (Registry.run trace_one_reader) = Ok (None, false)).
Proof.
  assert (Registry.registered 0 (Registry.run trace_one_reader)) as Hreg
    by (apply list_elem_of_singleton; reflexivity).
  destruct (C9_found_flag_tells_presence
              [AutoRefresh.WithMaxReplicationWriteLag 1]
              [AutoRefresh.CallInsert "a" (Some 1)]
              trace_one_reader 0 "nil" Hreg) as (Hnil & (Hengine & Hhandle) & _).
  split; [exact Hnil|]. split.
  - apply Hengine. intros value Hin.
    apply list_elem_of_singleton in Hin. discriminate Hin.
  - apply Hhandle. intros value Hin.
    apply elem_of_cons in Hin as [Hin|Hin]; [discriminate Hin|].
    apply list_elem_of_singleton in Hin. discriminate Hin.
Defined.

Lemma C10_witness :
  let w : AutoRefresh.world string nat :=
    AutoRefresh.run [AutoRefresh.WithMaxReplicationWriteLag 3]
                    [AutoRefresh.CallInsert "a" (Some 1)] in
  let w' := snd (AutoRefresh.Map_Delete "b" w) in
  fst (AutoRefresh.Map_Delete "b" w) = false ∧
  AutoRefresh.writable_contents w' = AutoRefresh.writable_contents w ∧
  AutoRefresh.maps w' = AutoRefresh.maps w ∧
  oplog.entries (AutoRefresh.oplog (AutoRefresh.engine w'))
    = [oplog.Insert "a" (Some 1); oplog.Delete "b"] ∧
  AutoRefresh.replicationWriteLag (AutoRefresh.engine w') = 2%Z.
Proof.
  intros w w'.
  assert (AutoRefresh.writable_contents w !! "b" = None) as Habs by reflexivity.
  destruct (C10_absent_delete_is_counted
              [AutoRefresh.WithMaxReplicationWriteLag 3]
              [AutoRefresh.CallInsert "a" (Some 1)] "b" Habs)
    as (Hret & HW & _ & _ & _ & Hquiet).
  destruct Hquiet as (Hmaps & Hlog & Hlag).
  exact (conj Hret (conj HW (conj Hmaps (conj Hlog Hlag)))).
Defined.

(** C10 as stated fails when the delete of an absent key is the write that
    crosses the threshold: with threshold 1, after one insert of "a", the
    delete of the absent "b" returns false, but the refresh it triggers
    changes the readable copy from empty to the map holding "a", leaves
    the log empty instead of one entry longer, and leaves the counter at 0
    instead of 2. *)
Lemma C10_counterexample :
  let w := world_at_threshold in
  let w' := snd (AutoRefresh.Map_Delete "b" w) in
  AutoRefresh.writable_contents w !! "b" = None ∧
  fst (AutoRefresh.Map_Delete "b" w) = false ∧
  AutoRefresh.readable_contents w = ∅ ∧
  AutoRefresh.readable_contents w' = {["a" := Some 1]} ∧
  AutoRefresh.readable_contents w' ≠ AutoRefresh.readable_contents w ∧
  AutoRefresh.maps w' ≠ AutoRefresh.maps w ∧
  oplog.entries (AutoRefresh.oplog (AutoRefresh.engine w)) = [oplog.Insert "a" (Some 1)] ∧
  oplog.entries (AutoRefresh.oplog (AutoRefresh.engine w')) = [] ∧
  AutoRefresh.replicationWriteLag (AutoRefresh.engine w) = 1%Z ∧
  AutoRefresh.replicationWriteLag (AutoRefresh.engine w') = 0%Z.
Proof.
  intros w w'.
  assert (AutoRefresh.readable_contents w = ∅) as HR by reflexivity.
  assert (AutoRefresh.readable_contents w' = {["a" := Some 1]}) as HR' by reflexivity.
  assert (({["a" := Some 1]} : gmap string (option nat)) ≠ ∅) as Hne.
  { intros Heq. apply (f_equal (fun m => m !! "a")) in Heq.
    rewrite lookup_singleton_eq, lookup_empty in Heq. discriminate Heq. }
  repeat split; try reflexivity.
  - rewrite HR', HR. exact Hne.
  - intros Heq. apply (f_equal at_r) in Heq.
    change (({["a" := Some 1]} : gmap string (option nat)) = ∅) in Heq. by apply Hne.
Qed.

(** C5, what the code does: after [Close], [Get] and [Has] on the closed
    handle still return a lookup result. Nothing ever sets [closed], so
    the check that panics never fires. *)
Lemma C5_get_after_close_returns_a_lookup :
  let w := Registry.run trace_close_then_read in
  Registry.closed <$> (Registry.handles w !! 0) = Some false ∧
  Registry.Reader_Get 0 "foo" w = Ok (Some 1, true) ∧
  Registry.Reader_Has 0 "foo" w = Ok true ∧
  Registry.Reader_Get 0 "bar" w = Ok (None, false).
Proof. repeat split; reflexivity. Qed.

(** C6, what the code does: closing the handle that stands last in the
    registry (here the second of two, and equally the only one) leaves it
    registered, and the next refresh re-points it like any other; closing
    the first of three does take it out, by writing the last one over it,
    and the registry keeps its length. *)
Lemma C6_close_keeps_last_handle_registered :
  let w := Registry.run trace_close_last in
  let w' := Registry.Map_Refresh (Registry.Map_Insert "foo" (Some 1) w) in
  Registry.readers (Registry.engine w) = [0; 1] ∧
  Registry.r_readable <$> (Registry.handles w !! 1) = Some addr_r ∧
  Registry.r_readable <$> (Registry.handles w' !! 1) = Some addr_w ∧
  Registry.Reader_Get 1 "foo" w' = Ok (Some 1, true) ∧
  Registry.readers (Registry.engine (Registry.run trace_close_only)) = [0] ∧
  Registry.readers (Registry.engine (Registry.run trace_close_first)) = [2; 1; 2].
Proof. repeat split; reflexivity. Qed.

Lemma live_handle_registered_witness :
  Registry.registered 0 (Registry.run trace_one_reader).
Proof.
  apply (live_handle_registered trace_one_reader 0).
  - simpl. lia.
  - intros Hin. apply elem_of_cons in Hin as [Hin|Hin]; [discriminate Hin|].
    apply list_elem_of_singleton in Hin. discriminate Hin.
Defined.

(** * Further properties of the code *)

(** ** The operation log: composition of its methods *)
Section OplogMore.
Context {K : Type} `{Countable K} `{Inhabited K} {V : Type}.
Implicit Types (m : gmap K (option V)) (e : oplog.entry K V) (l : oplog.Log K V).
Implicit Types (es : list (oplog.entry K V)) (key : K).

(** [PushAndApply] called once per entry of [es], in order, on a new log
    and the map [m]: the log and the map afterwards. *)
Definition pushAndApply_all es m : oplog.Log K V * gmap K (option V) :=
  foldl (fun st e => oplog.Log_PushAndApply (fst st) e (snd st)) (oplog.NewLog, m) es.

(** What a replay does at one key never depends on the rest of the map:
    either no entry touches the key, or the outcome is fixed by the log. *)
Lemma replay_key_cases es key :
  (∀ m, foldl (fun acc e => oplog.applyEntry e acc) m es !! key = m !! key) ∨
  (∃ x, ∀ m, foldl (fun acc e => oplog.applyEntry e acc) m es !! key = x).
Proof.
  induction es as [|e es IH] using rev_ind; [by left|].
  destruct e as [ty k0 v0]. destruct ty.
  - destruct (decide (k0 = key)) as [->|Hne].
    + right. exists (Some v0). intros m. rewrite foldl_snoc.
      unfold oplog.applyEntry. simpl. apply lookup_insert_eq.
    + destruct IH as [Hid|[x Hx]]; [left|right; exists x]; intros m;
        rewrite foldl_snoc; unfold oplog.applyEntry; simpl;
        rewrite lookup_insert_ne by done; auto.
  - destruct (decide (k0 = key)) as [->|Hne].
    + right. exists None. intros m. rewrite foldl_snoc.
      unfold oplog.applyEntry. simpl. apply lookup_delete_eq.
    + destruct IH as [Hid|[x Hx]]; [left|right; exists x]; intros m;
        rewrite foldl_snoc; unfold oplog.applyEntry; simpl;
        rewrite lookup_delete_ne by done; auto.
  - right. exists None. intros m. rewrite foldl_snoc.
    unfold oplog.applyEntry. simpl. by rewrite range_delete_empty.
Qed.

(** X5. [Apply] is idempotent: replaying a log on a map it has already
    been replayed on changes nothing, whatever the log and the map. *)
Theorem Log_Apply_idempotent l m :
  oplog.Log_Apply l (oplog.Log_Apply l m) = oplog.Log_Apply l m.
Proof.
  apply map_eq. intros key. unfold oplog.Log_Apply.
  destruct (replay_key_cases (oplog.entries l) key) as [Hid|[x Hx]].
  - apply Hid.
  - by rewrite !Hx.
Qed.

(** X6. A Clear entry cuts the log: replaying a log that holds a Clear
    gives what the entries after that Clear give on the empty map,
    whatever the target map held and whatever entries came before. *)
Theorem Log_Apply_cut_at_Clear es1 es2 (la : option (oplog.entry K V)) m :
  oplog.Log_Apply (oplog.MkLog (es1 ++ oplog.Clear :: es2) la) m
  = oplog.Log_Apply (oplog.MkLog es2 la) ∅.
Proof.
  unfold oplog.Log_Apply. simpl. rewrite foldl_app. simpl.
  by rewrite applyEntry_Clear.
Qed.

(** X7. After any sequence of [PushAndApply] calls on a new log, the log
    holds exactly the entries pushed, in order, [latest] is the last of
    them, [Len] is their number, and replaying the log on the map as it
    was before the calls gives the map as it is after them. *)
Theorem pushAndApply_all_replays es m :
  oplog.entries (fst (pushAndApply_all es m)) = es ∧
  oplog.latest (fst (pushAndApply_all es m)) = last es ∧
  oplog.Log_Len (fst (pushAndApply_all es m)) = Z.of_nat (length es) ∧
  oplog.Log_Apply (fst (pushAndApply_all es m)) m = snd (pushAndApply_all es m).
Proof.
  induction es as [|e es (IHe & IHl & IHn & IHa)] using rev_ind; [done|].
  unfold pushAndApply_all in *. rewrite foldl_snoc.
  destruct (foldl _ _ es) as [l0 m0]. simpl in *. subst es.
  split; [done|]. split; [by rewrite last_snoc|].
  split; [unfold oplog.Log_Len; simpl; done|].
  unfold oplog.Log_Apply in *. simpl. by rewrite foldl_snoc, IHa.
Qed.

End OplogMore.

(** ** The registry engine: what a run amounts to *)
Section RegistryMore.
Import Registry.
Context {K : Type} `{Countable K} `{Inhabited K} {V : Type}.
Implicit Types (w : world K V) (c : call K V) (cs ms : list (call K V)).
Implicit Types (es : list (oplog.entry K V)) (r : nat) (key : K).

(** The entry a call pushes on the log, for the calls that push one. *)
Definition entry_of c : option (oplog.entry K V) :=
  match c with
  | CallInsert key value => Some (oplog.Insert key value)
  | CallDelete key => Some (oplog.Delete key)
  | CallClear => Some oplog.Clear
  | _ => None
  end.

(** The ledger of a sequence of calls: the entries of the mutations that
    some later [Refresh] has published, and the entries of the mutations
    made since the last [Refresh], both in call order. *)
Definition ledger_step (st : list (oplog.entry K V) * list (oplog.entry K V)) c
  : list (oplog.entry K V) * list (oplog.entry K V) :=
  match c with
  | CallRefresh => (fst st ++ snd st, [])
  | _ => match entry_of c with
         | Some e => (fst st, snd st ++ [e])
         | None => st
         end
  end.

Definition ledger cs : list (oplog.entry K V) * list (oplog.entry K V) :=
  foldl ledger_step ([], []) cs.

(** The entries applied one after the other, first entry first. *)
Definition replay es (m : gmap K (option V)) : gmap K (option V) :=
  foldl (fun acc e => oplog.applyEntry e acc) m es.

Definition is_reader_call c : bool :=
  match c with CallReader => true | _ => false end.

(** Pointer propagation leaves the handles outside the registry alone. *)
Lemma propagate_other p (rs : list nat) (hs : list Reader) r :
  r ∉ rs → foldl (fun hs r => Reader_swapReadable r p hs) hs rs !! r = hs !! r.
Proof.
  revert hs. induction rs as [|r0 rs IH]; intros hs Hnotin; simpl; [done|].
  apply not_elem_of_cons in Hnotin as [Hne Hnotin].
  rewrite IH by done. unfold Reader_swapReadable.
  by rewrite list_lookup_alter_ne.
Qed.

Lemma Close_loop_absent r (s : list nat) idx (rest : list nat) :
  r ∉ rest → Close_loop r s idx rest = s.
Proof.
  revert idx. induction rest as [|reader rest IH]; intros idx Hnotin; simpl; [done|].
  apply not_elem_of_cons in Hnotin as [Hne Hnotin].
  rewrite decide_False by done. by apply IH.
Qed.

(** Mutations leave the handles and the engine's pointers as they are. *)
Lemma mutations_keep_pointers w ms :
  forallb is_mutation ms = true →
  handles (foldl exec w ms) = handles w ∧
  readable (engine (foldl exec w ms)) = readable (engine w) ∧
  writable (engine (foldl exec w ms)) = writable (engine w).
Proof.
  revert w. induction ms as [|c ms IH]; intros w Hms; simpl in *; [done|].
  apply andb_prop in Hms as [Hc Hms].
  destruct (IH (exec w c) Hms) as (-> & -> & ->).
  by destruct c.
Qed.

(** X8. A run of the engine is its ledger: the readable copy holds the
    replay, on an empty map, of the mutations published by a refresh; the
    log holds the mutations made since the last refresh; the writable copy
    holds the replay of all mutations. Handing out and closing handles
    changes none of the three, and no mutation is lost or reordered. *)
Theorem run_follows_ledger cs :
  readable_contents (run cs) = replay (fst (ledger cs)) ∅ ∧
  oplog.entries (oplog (engine (run cs))) = snd (ledger cs) ∧
  writable_contents (run cs) = replay (fst (ledger cs) ++ snd (ledger cs)) ∅.
Proof.
  induction cs as [|c cs (IHr & IHl & IHw)] using rev_ind; [done|].
  rewrite run_snoc. unfold ledger in *. rewrite foldl_snoc.
  pose proof (inv_run cs) as Hinv.
  assert (∀ e, readable_contents (pushAndApply e (run cs)) = readable_contents (run cs) ∧
               oplog.entries (oplog (engine (pushAndApply e (run cs))))
                 = oplog.entries (oplog (engine (run cs))) ++ [e] ∧
               writable_contents (pushAndApply e (run cs))
                 = oplog.applyEntry e (writable_contents (run cs))) as Hpush.
  { intros e. destruct Hinv as [Hd _ _ _ _].
    unfold readable_contents, writable_contents. simpl.
    by rewrite load_store_at_eq, load_store_at_ne. }
  assert (∀ e, replay (fst (foldl ledger_step ([], []) cs)
                       ++ snd (foldl ledger_step ([], []) cs) ++ [e]) ∅
               = oplog.applyEntry e (writable_contents (run cs))) as Hsnoc.
  { intros e. rewrite IHw, app_assoc. unfold replay. by rewrite foldl_snoc. }
  destruct c as [key' value|key'| | | |r'];
    cbn [exec ledger_step entry_of fst snd];
    unfold Map_Insert, Map_Delete, Map_Clear; cbn [snd].
  - destruct (Hpush (oplog.Insert key' value)) as (-> & -> & ->).
    by rewrite IHr, IHl, Hsnoc.
  - destruct (Hpush (oplog.Delete key')) as (-> & -> & ->).
    by rewrite IHr, IHl, Hsnoc.
  - destruct (Hpush oplog.Clear) as (-> & -> & ->).
    by rewrite IHr, IHl, Hsnoc.
  - destruct (Map_Refresh_contents _ Hinv) as [-> ->].
    by rewrite app_nil_r, IHw.
  - done.
  - done.
Qed.

(** X9. A handle from [Map.Reader] is new to the registry, is registered
    once [Reader] returns, and reads the copy that is readable at that
    moment: writes that no refresh has published are not seen. *)
Theorem Map_Reader_starts_on_readable cs key :
  (fst (Map_Reader (run cs)) ∉ readers (engine (run cs))) ∧
  registered (fst (Map_Reader (run cs))) (snd (Map_Reader (run cs))) ∧
  Reader_Get (fst (Map_Reader (run cs))) key (snd (Map_Reader (run cs)))
    = Ok (golookup (readable_contents (run cs)) key) ∧
  Reader_Has (fst (Map_Reader (run cs))) key (snd (Map_Reader (run cs)))
    = Ok (snd (golookup (readable_contents (run cs)) key)).
Proof.
  pose proof (inv_run cs) as [Hd Hr Ha Hp Ho]. simpl. split; [|split].
  - intros Hin. apply Ha in Hin. lia.
  - unfold registered. simpl. apply elem_of_app. right. by apply list_elem_of_singleton.
  - unfold Reader_Get, Reader_Has. simpl.
    by rewrite list_lookup_middle.
Qed.

(** X10. [Clear] followed by [Refresh]: every registered handle then finds
    no key at all. *)
Theorem Clear_then_Refresh_empties cs r key :
  registered r (run cs) →
  Reader_Has r key (Map_Refresh (Map_Clear (run cs))) = Ok false ∧
  Reader_Get r key (Map_Refresh (Map_Clear (run cs))) = Ok (None, false).
Proof.
  intros Hreg. pose proof (inv_pushAndApply oplog.Clear _ (inv_run cs)) as Hinv.
  unfold Map_Clear.
  destruct (registered_Get _ r key (inv_Map_Refresh _ Hinv)) as [-> ->]; [done|].
  destruct (Map_Refresh_contents _ Hinv) as [-> _].
  unfold writable_contents. simpl.
  by rewrite load_store_at_eq, applyEntry_Clear.
Qed.

(** X11. The registry and the heap of handles are as long as the number
    of [Map.Reader] calls made so far: no [Close] and no [Refresh] ever
    makes either shorter. *)
Theorem registry_length_counts_Reader_calls cs :
  length (readers (engine (run cs))) = length (List.filter is_reader_call cs) ∧
  length (handles (run cs)) = length (List.filter is_reader_call cs).
Proof.
  induction cs as [|c cs [IHr IHh]] using rev_ind; [done|].
  rewrite run_snoc, List.filter_app, length_app.
  destruct c; simpl; rewrite ?length_app, ?propagate_length, ?Close_loop_length; simpl; lia.
Qed.

(** X12. A handle that [Close] took out of the registry is no longer
    re-pointed: if it pointed to the readable copy, then after the next
    [Refresh] it points to the writable copy, and [Get] and [Has] on it
    return what the writable copy holds after any further inserts, deletes
    and clears, with no refresh in between. *)
Theorem dropped_handle_reads_writable cs ms r key :
  r ∉ readers (engine (run cs)) →
  r_readable <$> handles (run cs) !! r = Some (readable (engine (run cs))) →
  forallb is_mutation ms = true →
  Reader_Get r key (foldl exec (Map_Refresh (run cs)) ms)
    = Ok (golookup (writable_contents (foldl exec (Map_Refresh (run cs)) ms)) key) ∧
  Reader_Has r key (foldl exec (Map_Refresh (run cs)) ms)
    = Ok (snd (golookup (writable_contents (foldl exec (Map_Refresh (run cs)) ms)) key)).
Proof.
  intros Hnotin Hptr Hms. pose proof (inv_run cs) as [Hd Hr Ha Hp Ho].
  destruct (handles (run cs) !! r) as [h|] eqn:Hh; [|done].
  simpl in Hptr. injection Hptr as Hptr.
  destruct (mutations_keep_pointers (Map_Refresh (run cs)) ms Hms) as (Hhs & _ & Hwr).
  unfold Reader_Get, Reader_Has, writable_contents. rewrite Hhs, Hwr. simpl.
  rewrite propagate_other by done.
  by rewrite Hh, (Ho r h Hh), Hptr.
Qed.

(** X13. [Close] on a handle that is not in the registry (closed before
    and taken out, say) changes nothing at all. *)
Theorem Close_unregistered_changes_nothing w r :
  r ∉ readers (engine w) → Reader_Close r w = w.
Proof.
  intros Hnotin. destruct w as [s hs [rd wr rs l]]. unfold Reader_Close. simpl in *.
  by rewrite Close_loop_absent.
Qed.

End RegistryMore.

(** ** The automatic-refresh engine: threshold, counter and publication *)
Section AutoRefreshMore.
Import AutoRefresh.
Context {K : Type} `{Countable K} `{Inhabited K} {V : Type}.
Implicit Types (w : world K V) (c : call K V) (cs : list (call K V)).
Implicit Types (key : K) (options : list OptionFunc).

(** The entry a call pushes on the log, for the calls that push one. *)
Definition auto_entry_of c : option (oplog.entry K V) :=
  match c with
  | CallInsert key value => Some (oplog.Insert key value)
  | CallDelete key => Some (oplog.Delete key)
  | CallClear => Some oplog.Clear
  | CallRefresh => None
  end.

Definition auto_is_mutation c : bool :=
  match c with CallRefresh => false | _ => true end.

(** The threshold of an engine made with [options]. *)
Definition threshold_of options : Z :=
  maxReplicationWriteLag (engine (@NewMap K _ _ V options)).

Lemma auto_exec_mutation w c :
  auto_is_mutation c = true →
  ∃ e, auto_entry_of c = Some e ∧ exec w c = Map_observeWrite (pushAndApply e w).
Proof. destruct c; intros Hc; try done; eexists; split; reflexivity. Qed.

Lemma auto_exec_keeps_threshold w c :
  maxReplicationWriteLag (engine (exec w c)) = maxReplicationWriteLag (engine w).
Proof.
  destruct c; cbn [exec]; unfold Map_Insert, Map_Delete, Map_Clear; cbn [snd];
    rewrite ?Map_observeWrite_cases; try destruct (crosses _); reflexivity.
Qed.

Lemma auto_threshold_fixed options cs :
  maxReplicationWriteLag (engine (run options cs)) = threshold_of options.
Proof.
  induction cs as [|c cs IH] using rev_ind; [done|].
  by rewrite auto_run_snoc, auto_exec_keeps_threshold.
Qed.

(** X14. In every heap a sequence of calls reaches, with any options, the
    writable copy holds the replay on an empty map of all inserts, deletes
    and clears made so far, in call order: automatic and explicit
    refreshes lose and reorder nothing. *)
Theorem auto_writable_holds_all_writes options cs :
  writable_contents (run options cs) = replay (omap auto_entry_of cs) ∅.
Proof.
  induction cs as [|c cs IH] using rev_ind; [done|].
  rewrite auto_run_snoc, omap_app. pose proof (auto_inv_run options cs) as Hinv.
  destruct (decide (auto_is_mutation c = true)) as [Hc|Hc].
  - destruct (auto_exec_mutation (run options cs) c Hc) as (e & He & ->).
    rewrite auto_observeWrite_writable by by apply auto_inv_pushAndApply.
    rewrite auto_pushAndApply_writable, IH. simpl. rewrite He. simpl.
    unfold replay. by rewrite foldl_snoc.
  - destruct c; try done. simpl. rewrite app_nil_r.
    by destruct (auto_Refresh_contents _ Hinv) as [_ ->].
Qed.

(** X15. After [Refresh], [Get] and [Has] on the engine return, for every
    key, what a lookup in the writable copy gave just before. *)
Theorem auto_Refresh_publishes_writable options cs key :
  Map_Get key (Map_Refresh (run options cs))
    = golookup (writable_contents (run options cs)) key ∧
  Map_Has key (Map_Refresh (run options cs))
    = snd (golookup (writable_contents (run options cs)) key).
Proof.
  destruct (auto_Refresh_contents _ (auto_inv_run options cs)) as [HR _].
  unfold Map_Get, Map_Has. fold (readable_contents (Map_Refresh (run options cs))).
  by rewrite HR.
Qed.

(** X16. [Clear] followed by [Refresh]: the engine then finds no key at
    all, whether or not the clear itself triggered a refresh. *)
Theorem auto_Clear_then_Refresh_empties options cs key :
  Map_Has key (Map_Refresh (Map_Clear (run options cs))) = false ∧
  Map_Get key (Map_Refresh (Map_Clear (run options cs))) = (None, false).
Proof.
  pose proof (auto_inv_pushAndApply oplog.Clear _ (auto_inv_run options cs)) as Hinv.
  destruct (auto_Refresh_contents _ (auto_inv_observeWrite _ Hinv)) as [HR _].
  unfold Map_Has, Map_Get, Map_Clear in *.
  fold (readable_contents
          (Map_Refresh (Map_observeWrite (pushAndApply oplog.Clear (run options cs))))).
  rewrite HR, auto_observeWrite_writable, auto_pushAndApply_writable by done.
  by rewrite applyEntry_Clear.
Qed.

(** X17. The threshold is fixed when the engine is made: it is 0 (no
    automatic refresh) without options, the last
    [WithMaxReplicationWriteLag] given wins, and no call ever changes it. *)
Theorem threshold_set_by_last_option :
  threshold_of [] = 0%Z ∧
  (∀ options writes, threshold_of (options ++ [WithMaxReplicationWriteLag writes]) = writes) ∧
  (∀ options cs, maxReplicationWriteLag (engine (run options cs)) = threshold_of options).
Proof.
  split; [done|]. split.
  - intros options writes. unfold threshold_of, NewMap. simpl. by rewrite foldl_snoc.
  - apply auto_threshold_fixed.
Qed.

(** X18. With a threshold [n] configured, [0 < n] and below the largest
    int, every heap a sequence of calls reaches has the counter between 0
    and [n], and the counter is the length of the log: the readable copy
    is never more than [n] writes behind. *)
Theorem counter_is_log_length options cs :
  (0 < threshold_of options)%Z → (threshold_of options < max_int)%Z →
  (0 ≤ replicationWriteLag (engine (run options cs)) ≤ threshold_of options)%Z ∧
  oplog.Log_Len (oplog (engine (run options cs)))
    = replicationWriteLag (engine (run options cs)).
Proof.
  intros Hpos Hmax.
  induction cs as [|c cs [IHb IHl]] using rev_ind.
  { split; [|done]. simpl. lia. }
  rewrite auto_run_snoc. pose proof (auto_threshold_fixed options cs) as Hn.
  remember (threshold_of options) as n eqn:Hdef. clear Hdef.
  destruct (decide (auto_is_mutation c = true)) as [Hc|Hc].
  - destruct (auto_exec_mutation (run options cs) c Hc) as (e & _ & ->).
    rewrite Map_observeWrite_cases. unfold crosses. simpl.
    rewrite Hn, wrap_int_succ by (unfold max_int in *; lia).
    destruct (_ && _) eqn:Hcross; simpl.
    + split; [lia|done].
    + apply andb_false_iff in Hcross as [Hz|Hz]; [apply Z.ltb_ge in Hz; exfalso; lia|].
      apply Z.ltb_ge in Hz. rewrite wrap_int_succ by (unfold max_int in *; lia).
      split; [lia|].
      unfold oplog.Log_Len in *. simpl. rewrite length_app. simpl. lia.
  - destruct c; try done. simpl. split; [lia|done].
Qed.

(** X19. With no threshold configured (0 or negative), inserts, deletes
    and clears alone never publish anything: without a call of [Refresh]
    the readable copy stays empty and [Has] is false for every key. *)
Theorem no_threshold_never_publishes options cs key :
  (threshold_of options ≤ 0)%Z →
  forallb auto_is_mutation cs = true →
  readable_contents (run options cs) = ∅ ∧
  Map_Has key (run options cs) = false ∧
  Map_Get key (run options cs) = (None, false).
Proof.
  intros Hoff Hcs.
  assert (readable_contents (run options cs) = ∅) as HR.
  { induction cs as [|c cs IH] using rev_ind; [done|].
    rewrite forallb_app in Hcs. apply andb_prop in Hcs as [Hcs Hc]. simpl in Hc.
    rewrite andb_true_r in Hc. rewrite auto_run_snoc.
    destruct (auto_exec_mutation (run options cs) c Hc) as (e & _ & ->).
    pose proof (auto_inv_pushAndApply e _ (auto_inv_run options cs)) as Hinv.
    rewrite auto_observeWrite_readable by done.
    assert (crosses (pushAndApply e (run options cs)) = false) as ->.
    { unfold crosses. simpl. rewrite auto_threshold_fixed.
      apply andb_false_iff. left. apply Z.ltb_ge. done. }
    rewrite auto_pushAndApply_readable by apply auto_inv_run. by apply IH. }
  split; [done|]. unfold Map_Has, Map_Get.
  fold (readable_contents (run options cs)). by rewrite HR.
Qed.

(** X20. A write that does not make the counter exceed a configured
    threshold is invisible to readers: [Get] returns for every key what it
    returned before the insert, delete or clear. *)
Theorem write_below_threshold_invisible options cs c key :
  auto_is_mutation c = true →
  (0 <? maxReplicationWriteLag (engine (run options cs)))%Z &&
  (maxReplicationWriteLag (engine (run options cs))
     <? wrap_int (replicationWriteLag (engine (run options cs)) + 1))%Z = false →
  Map_Get key (exec (run options cs) c) = Map_Get key (run options cs).
Proof.
  intros Hc Hquiet.
  destruct (auto_exec_mutation (run options cs) c Hc) as (e & _ & ->).
  pose proof (auto_inv_run options cs) as Hinv.
  unfold Map_Get.
  fold (readable_contents (Map_observeWrite (pushAndApply e (run options cs)))).
  fold (readable_contents (run options cs)).
  rewrite auto_observeWrite_readable by by apply auto_inv_pushAndApply.
  change (crosses (pushAndApply e (run options cs))) with
    ((0 <? maxReplicationWriteLag (engine (run options cs)))%Z &&
     (maxReplicationWriteLag (engine (run options cs))
        <? wrap_int (replicationWriteLag (engine (run options cs)) + 1))%Z).
  rewrite Hquiet. by rewrite auto_pushAndApply_readable.
Qed.

End AutoRefreshMore.

(** ** The pointer swap and the two physical maps *)
Section SwapFacts.
Context {K : Type} `{Countable K} `{Inhabited K} {V : Type}.

Definition is_refresh_call (c : Registry.call K V) : bool :=
  match c with Registry.CallRefresh => true | _ => false end.

(** X21. The two [SwapPointer] steps of [swapLocked] (and of map.go's
    [swap]) exchange the two pointers and touch no other field, so
    swapping twice gives the struct back. *)
Theorem swap_exchanges_the_pointers :
  (∀ m : Registry.Map K V,
     Registry.readable (Registry.Map_swapLocked m) = Registry.writable m ∧
     Registry.writable (Registry.Map_swapLocked m) = Registry.readable m ∧
     Registry.readers (Registry.Map_swapLocked m) = Registry.readers m ∧
     Registry.oplog (Registry.Map_swapLocked m) = Registry.oplog m ∧
     Registry.Map_swapLocked (Registry.Map_swapLocked m) = m) ∧
  (∀ m : AutoRefresh.Map K V,
     AutoRefresh.readable (AutoRefresh.Map_swap m) = AutoRefresh.writable m ∧
     AutoRefresh.writable (AutoRefresh.Map_swap m) = AutoRefresh.readable m ∧
     AutoRefresh.oplog (AutoRefresh.Map_swap m) = AutoRefresh.oplog m ∧
     AutoRefresh.replicationWriteLag (AutoRefresh.Map_swap m)
       = AutoRefresh.replicationWriteLag m ∧
     AutoRefresh.Map_swap (AutoRefresh.Map_swap m) = m).
Proof. split; intros []; repeat split; reflexivity. Qed.

(** X22. Which physical map is readable alternates with every [Refresh]
    and changes with nothing else: after an even number of refreshes the
    readable copy is the map [NewMap] made first and the writable copy the
    second, after an odd number it is the other way round. *)
Theorem readable_map_alternates (cs : list (Registry.call K V)) :
  Registry.readable (Registry.engine (Registry.run cs))
    = (if Nat.even (length (List.filter is_refresh_call cs)) then addr_r else addr_w) ∧
  Registry.writable (Registry.engine (Registry.run cs))
    = (if Nat.even (length (List.filter is_refresh_call cs)) then addr_w else addr_r).
Proof.
  induction cs as [|c cs [IHr IHw]] using rev_ind; [done|].
  rewrite run_snoc, List.filter_app, length_app.
  destruct c; simpl; rewrite ?Nat.add_0_r; try done.
  rewrite Nat.add_1_r, Nat.even_succ, <- Nat.negb_even, IHr, IHw.
  by destruct (Nat.even _).
Qed.

End SwapFacts.

(** ** The further properties on concrete runs *)

(** Two handles are handed out and the first is closed: it is taken out of
    the registry, and the second now stands there twice. *)
Definition trace_close_first_of_two : list (Registry.call string nat) :=
  [Registry.CallReader; Registry.CallReader; Registry.CallClose 0].

Definition auto_two_inserts : list (AutoRefresh.call string nat) :=
  [AutoRefresh.CallInsert "a" (Some 1); AutoRefresh.CallInsert "b" None].

Lemma Clear_then_Refresh_empties_witness :
  Registry.Reader_Has 0 "foo"
    (Registry.Map_Refresh (Registry.Map_Clear (Registry.run trace_one_reader))) = Ok false ∧
  Registry.Reader_Get 0 "foo"
    (Registry.Map_Refresh (Registry.Map_Clear (Registry.run trace_one_reader)))
    = Ok (None, false).
Proof.
  assert (Registry.registered 0 (Registry.run trace_one_reader)) as Hreg
    by (apply list_elem_of_singleton; reflexivity).
  exact (Clear_then_Refresh_empties trace_one_reader 0 "foo" Hreg).
Defined.

Lemma dropped_handle_reads_writable_witness :
  Registry.Reader_Get 0 "foo"
    (Registry.Map_Insert "foo" (Some 1)
       (Registry.Map_Refresh (Registry.run trace_close_first_of_two)))
    = Ok (Some 1, true) ∧
  Registry.Reader_Has 0 "foo"
    (Registry.Map_Insert "foo" (Some 1)
       (Registry.Map_Refresh (Registry.run trace_close_first_of_two)))
    = Ok true.
Proof.
  assert (0 ∉ Registry.readers (Registry.engine (Registry.run trace_close_first_of_two)))
    as Hnotin by (apply (bool_decide_unpack _); vm_compute; exact I).
  exact (dropped_handle_reads_writable trace_close_first_of_two
           [Registry.CallInsert "foo" (Some 1)] 0 "foo" Hnotin eq_refl eq_refl).
Defined.

Lemma Close_unregistered_changes_nothing_witness :
  Registry.Reader_Close 0 (Registry.run trace_close_first_of_two)
  = Registry.run trace_close_first_of_two.
Proof.
  apply Close_unregistered_changes_nothing.
  apply (bool_decide_unpack _). vm_compute. exact I.
Defined.

Lemma counter_is_log_length_witness :
  (0 ≤ AutoRefresh.replicationWriteLag
         (AutoRefresh.engine
            (AutoRefresh.run [AutoRefresh.WithMaxReplicationWriteLag 3] auto_two_inserts))
     ≤ 3)%Z ∧
  oplog.Log_Len
    (AutoRefresh.oplog
       (AutoRefresh.engine
          (AutoRefresh.run [AutoRefresh.WithMaxReplicationWriteLag 3] auto_two_inserts)))
  = AutoRefresh.replicationWriteLag
      (AutoRefresh.engine
         (AutoRefresh.run [AutoRefresh.WithMaxReplicationWriteLag 3] auto_two_inserts)).
Proof.
  apply (counter_is_log_length (K := string) (V := nat)
           [AutoRefresh.WithMaxReplicationWriteLag 3] auto_two_inserts).
  - reflexivity.
  - reflexivity.
Defined.

Lemma no_threshold_never_publishes_witness :
  AutoRefresh.readable_contents (AutoRefresh.run [] auto_two_inserts) = ∅ ∧
  AutoRefresh.Map_Has "a" (AutoRefresh.run [] auto_two_inserts) = false ∧
  AutoRefresh.Map_Get "a" (AutoRefresh.run [] auto_two_inserts) = (None, false).
Proof.
  apply (no_threshold_never_publishes [] auto_two_inserts "a").
  - discriminate.
  - reflexivity.
Defined.

Lemma write_below_threshold_invisible_witness :
  AutoRefresh.Map_Get "c"
    (AutoRefresh.exec
       (AutoRefresh.run [AutoRefresh.WithMaxReplicationWriteLag 3] auto_two_inserts)
       (AutoRefresh.CallInsert "c" (Some 3)))
  = AutoRefresh.Map_Get "c"
      (AutoRefresh.run [AutoRefresh.WithMaxReplicationWriteLag 3] auto_two_inserts).
Proof.
  apply (write_below_threshold_invisible
           [AutoRefresh.WithMaxReplicationWriteLag 3] auto_two_inserts
           (AutoRefresh.CallInsert "c" (Some 3)) "c").
  - reflexivity.
  - reflexivity.
Defined.

(** ** The slice helper of reader.go *)
Section RemoveFacts.
Context {A : Type}.

Lemma remove_middle (front : list A) (x : A) (back : list A) :
  ∃ s' ret, Registry.remove (front ++ x :: back) (length front) = Some (s', ret) ∧
            ret ≡ₚ front ++ back ∧ length s' = length (front ++ x :: back).
Proof.
  unfold Registry.remove.
  destruct back as [|y back _] using rev_ind.
  - replace (length (front ++ [x]) - 1) with (length front)
      by (rewrite length_app; simpl; lia).
    rewrite list_lookup_middle by done.
    rewrite decide_True by (rewrite length_app; simpl; lia).
    eexists _, _. split; [reflexivity|]. simpl.
    rewrite list_insert_id by by apply list_lookup_middle.
    rewrite take_app_length. by rewrite app_nil_r.
  - replace (front ++ x :: back ++ [y]) with ((front ++ x :: back) ++ [y])
      by by rewrite <- app_assoc.
    replace (length ((front ++ x :: back) ++ [y]) - 1) with (length (front ++ x :: back))
      by (rewrite !length_app; simpl; lia).
    rewrite list_lookup_middle by done.
    rewrite decide_True by (rewrite !length_app; simpl; lia).
    eexists _, _. split; [reflexivity|]. simpl. split; [|by rewrite length_insert].
    rewrite insert_app_l by (rewrite length_app; simpl; lia).
    rewrite take_app_length' by by rewrite length_insert.
    rewrite insert_app_r_alt, Nat.sub_diag by done. simpl.
    apply Permutation_app_head. apply Permutation_cons_append.
Qed.

(** X23. [remove(s, i)] is a swap-remove. For an index inside the slice
    the slice it returns is one shorter and holds, up to order, the
    elements of [s] without the one at [i], and the caller's own slice
    keeps its length; for an index outside (so always for an empty slice)
    it panics. *)
Theorem remove_is_swap_remove (s : list A) (i : nat) :
  if decide (i < length s)
  then ∃ s' ret, Registry.remove s i = Some (s', ret) ∧
                 ret ≡ₚ delete i s ∧
                 length ret = length s - 1 ∧
                 length s' = length s
  else Registry.remove s i = None.
Proof.
  case_decide as Hi.
  - destruct (lookup_lt_is_Some_2 s i Hi) as [x Hx].
    pose proof (take_drop_middle s i x Hx) as Hs.
    assert (length (take i s) = i) as Hlen by (rewrite length_take; lia).
    destruct (remove_middle (take i s) x (drop (S i) s)) as (s' & ret & Hrm & Hperm & Hlen').
    rewrite Hs, Hlen in Hrm. rewrite Hs in Hlen'.
    exists s', ret. split; [done|]. split; [|split; [|done]].
    + by rewrite Hperm, delete_take_drop.
    + rewrite Hperm, length_app, length_take, length_drop. lia.
  - unfold Registry.remove. destruct (s !! (length s - 1)); [|done].
    by rewrite decide_False.
Qed.

End RemoveFacts.
